(** * Rollback disjoint-set union and offline dynamic connectivity

    A shallow embedding of [src/dsu.py]: the class [RollbackDSU] (union-find
    with an undo log and no path compression) and the class
    [OfflineDynamicConnectivity] (divide and conquer over the time axis).

    Conventions of the embedding.
    - Python lists are Rocq lists, read with stdpp's lookup [l !! i] and
      written with [<[i:=v]> l]; an index outside the list raises
      [IndexError], as [list.__getitem__] and [list.__setitem__] do.
    - Node ids and query ids are natural numbers (Python's negative indices
      are outside the model); sizes and times are unbounded integers [Z].
    - A call either returns a value or raises: [result A].  The [while] loop
      of [find] and the recursion of [_solve_recursive] take an explicit
      iteration budget and answer [OutOfFuel] when it is exhausted. *)

From stdpp Require Import base numbers list.

Set Default Proof Using "Type".
Set Warnings "-clear-no-such-hyp".

(** ** Outcomes of a call *)

Inductive result (A : Type) : Type :=
| Ok (a : A)
| IndexError
| ValueError
| OutOfFuel.

Arguments Ok {A} a.
Arguments IndexError {A}.
Arguments ValueError {A}.
Arguments OutOfFuel {A}.

#[global] Instance result_eq_dec {A} `{EqDecision A} : EqDecision (result A).
Proof. solve_decision. Defined.

#[global] Instance result_ret : MRet result := fun A a => Ok a.

#[global] Instance result_bind : MBind result := fun A B f m =>
  match m with
  | Ok a => f a
  | IndexError => IndexError
  | ValueError => ValueError
  | OutOfFuel => OutOfFuel
  end.

(** [l[i]] *)
Definition getitem {A} (l : list A) (i : nat) : result A :=
  match l !! i with
  | Some a => Ok a
  | None => IndexError
  end.

(** [l[i] = v] *)
Definition setitem {A} (l : list A) (i : nat) (v : A) : result (list A) :=
  if decide (i < length l) then Ok (<[i:=v]> l) else IndexError.

(** [l.pop()] on a non-empty list: the remaining list and the last element. *)
Definition pop {A} (l : list A) : option (list A * A) :=
  match reverse l with
  | [] => None
  | a :: r => Some (reverse r, a)
  end.

(** ** class RollbackDSU *)

Module RollbackDSU.

(** A history entry: [None] for a no-op union, otherwise the tuple
    [(root_y, parent[root_y], size[root_x])] saved by [union]. *)
Definition entry : Type := option (nat * nat * Z).

Record t : Type := mk {
  parent : list nat;
  size : list Z;
  history : list entry
}.

Definition set_parent (d : t) (p : list nat) : t := mk p (size d) (history d).
Definition set_size (d : t) (s : list Z) : t := mk (parent d) s (history d).
Definition set_history (d : t) (h : list entry) : t := mk (parent d) (size d) h.

(** [__init__]: [parent = list(range(n))], [size = [1] * n], [history = []]. *)
Definition init (n : nat) : t := mk (seq 0 n) (replicate n 1%Z) [].

(** [find]: [while self.parent[x] != x: x = self.parent[x]]; one unit of
    fuel per evaluation of the loop test. *)
Fixpoint find_loop (fuel : nat) (p : list nat) (x : nat) : result nat :=
  match fuel with
  | 0 => OutOfFuel
  | S fuel' =>
      px ← getitem p x;
      if px =? x then Ok x else find_loop fuel' p px
  end.

Definition find (fuel : nat) (d : t) (x : nat) : result nat :=
  find_loop fuel (parent d) x.

(** [union]: returns the new state and the boolean result. *)
Definition union (fuel : nat) (d : t) (x y : nat) : result (t * bool) :=
  root_x ← find fuel d x;
  root_y ← find fuel d y;
  if root_x =? root_y then
    Ok (set_history d (history d ++ [None]), false)
  else
    size_x ← getitem (size d) root_x;
    size_y ← getitem (size d) root_y;
    let '(root_x, root_y) :=
      if (size_x <? size_y)%Z then (root_y, root_x) else (root_x, root_y) in
    old_parent ← getitem (parent d) root_y;
    old_size ← getitem (size d) root_x;
    let d := set_history d (history d ++ [Some (root_y, old_parent, old_size)]) in
    p ← setitem (parent d) root_y root_x;
    let d := set_parent d p in
    sx ← getitem (size d) root_x;
    sy ← getitem (size d) root_y;
    s ← setitem (size d) root_x (sx + sy)%Z;
    Ok (set_size d s, true).

(** [rollback]. *)
Definition rollback (fuel : nat) (d : t) : result t :=
  match pop (history d) with
  | None => Ok d
  | Some (h, last_op) =>
      let d := set_history d h in
      match last_op with
      | None => Ok d
      | Some (node, old_parent, old_size) =>
          p ← setitem (parent d) node old_parent;
          let d := set_parent d p in
          root ← (if negb (old_parent =? node) then find fuel d old_parent
                  else Ok node);
          if negb (root =? node) then
            s ← setitem (size d) root old_size;
            let d := set_size d s in
            sn ← getitem (size d) node;
            s ← setitem (size d) node (sn - old_size + 1)%Z;
            Ok (set_size d s)
          else Ok d
      end
  end.

(** Whether a call of [rollback] enters the branch [if root != node], the
    one that assigns to [self.size]: the value of that test when the call
    reaches it, [false] when the call returns before it. *)
Definition restores_size (fuel : nat) (d : t) : result bool :=
  match pop (history d) with
  | None => Ok false
  | Some (h, None) => Ok false
  | Some (h, Some (node, old_parent, old_size)) =>
      let d := set_history d h in
      p ← setitem (parent d) node old_parent;
      let d := set_parent d p in
      root ← (if negb (old_parent =? node) then find fuel d old_parent
              else Ok node);
      Ok (negb (root =? node))
  end.

(** [connected]. *)
Definition connected (fuel : nat) (d : t) (x y : nat) : result bool :=
  root_x ← find fuel d x;
  root_y ← find fuel d y;
  Ok (root_x =? root_y).

(** [get_checkpoint]. *)
Definition get_checkpoint (d : t) : nat := length (history d).

(** [rollback_to]: [while len(self.history) > checkpoint: self.rollback()].
    A call of [rollback] on a non-empty history pops one entry, so the loop
    body runs at most [len(self.history)] times; [iters] is that bound. *)
Fixpoint rollback_to_loop (iters fuel checkpoint : nat) (d : t) : result t :=
  if decide (checkpoint < length (history d)) then
    match iters with
    | 0 => OutOfFuel
    | S iters' => d' ← rollback fuel d; rollback_to_loop iters' fuel checkpoint d'
    end
  else Ok d.

Definition rollback_to (fuel checkpoint : nat) (d : t) : result t :=
  rollback_to_loop (length (history d)) fuel checkpoint d.

(** A client's call on the structure, and a sequence of calls run in order
    from a given state.  [find] and [connected] only read. *)
Inductive call : Type :=
| Union (x y : nat)
| Rollback
| RollbackTo (checkpoint : nat)
| Find (x : nat)
| Connected (x y : nat).

Definition step (fuel : nat) (d : t) (c : call) : result t :=
  match c with
  | Union x y => '(d', _) ← union fuel d x y; Ok d'
  | Rollback => rollback fuel d
  | RollbackTo c => rollback_to fuel c d
  | Find x => _ ← find fuel d x; Ok d
  | Connected x y => _ ← connected fuel d x y; Ok d
  end.

Fixpoint run (fuel : nat) (d : t) (cs : list call) : result t :=
  match cs with
  | [] => Ok d
  | c :: cs' => d' ← step fuel d c; run fuel d' cs'
  end.

End RollbackDSU.

(** ** class OfflineDynamicConnectivity *)

Module OfflineDynamicConnectivity.

(** The tuples appended to [self.operations]:
    [('edge', u, v, time_start, time_end)] and
    [('query', u, v, time, query_id)]. *)
Inductive operation : Type :=
| Edge (u v : nat) (time_start time_end : Z)
| Query (u v : nat) (time : Z) (query_id : nat).

Definition is_query (op : operation) : bool :=
  match op with Query _ _ _ _ => true | Edge _ _ _ _ => false end.

(** [op[3]]: [time_start] of an edge, [time] of a query. *)
Definition op3 (op : operation) : Z :=
  match op with
  | Edge _ _ time_start _ => time_start
  | Query _ _ time _ => time
  end.

(** The 4-tuples [(op[1], op[2], op[3], op[4])] built by [solve]. *)
Abbreviation edge := (nat * nat * Z * Z)%type (only parsing).
Abbreviation query := (nat * nat * Z * nat)%type (only parsing).

Record t : Type := mk {
  n : nat;
  operations : list operation;
  answers : list bool
}.

(** [__init__]. *)
Definition init (n : nat) : t := mk n [] [].

(** [add_edge]. *)
Definition add_edge (self : t) (u v : nat) (time_start time_end : Z) : t :=
  mk (n self) (operations self ++ [Edge u v time_start time_end]) (answers self).

(** [add_query]: the query id is the number of queries registered so far. *)
Definition add_query (self : t) (u v : nat) (time : Z) : t :=
  let query_id := length (filter (fun op => is_query op = true) (operations self)) in
  mk (n self) (operations self ++ [Query u v time query_id]) (answers self).

(** [[(op[1], op[2], op[3], op[4]) for op in self.operations if op[0] == 'query']] *)
Definition queries_of (ops : list operation) : list query :=
  omap (fun op => match op with
                  | Query u v time qid => Some (u, v, time, qid)
                  | Edge _ _ _ _ => None
                  end) ops.

(** [[(op[1], op[2], op[3], op[4]) for op in self.operations if op[0] == 'edge']] *)
Definition edges_of (ops : list operation) : list edge :=
  omap (fun op => match op with
                  | Edge u v time_start time_end => Some (u, v, time_start, time_end)
                  | Query _ _ _ _ => None
                  end) ops.

(** Python's [max] over a generator: [ValueError] on an empty sequence. *)
Definition py_max (l : list Z) : result Z :=
  match l with
  | [] => ValueError
  | z :: l' => Ok (foldl Z.max z l')
  end.

(** The last argument of the top-level call in [solve]:
    [max(op[3] for op in self.operations) + 1]. *)
Definition time_bound (ops : list operation) : result Z :=
  m ← py_max (op3 <$> ops); Ok (m + 1)%Z.

(** The test [start <= time_left and end >= time_mid] of [_solve_recursive]. *)
Definition spans (time_left time_mid : Z) (e : edge) : bool :=
  let '(_, _, start, end_) := e in
  (start <=? time_left)%Z && (end_ >=? time_mid)%Z.

#[global] Arguments spans : simpl never.

(** The loop that merges every edge spanning [[time_left, time_mid)]. *)
Fixpoint add_spanning (fuel : nat) (edges : list edge) (time_left time_mid : Z)
    (dsu : RollbackDSU.t) : result RollbackDSU.t :=
  match edges with
  | [] => Ok dsu
  | (u, v, start, end_) :: edges' =>
      if spans time_left time_mid (u, v, start, end_) then
        '(dsu', _) ← RollbackDSU.union fuel dsu u v;
        add_spanning fuel edges' time_left time_mid dsu'
      else add_spanning fuel edges' time_left time_mid dsu
  end.

(** The loop that splits [query_indices] into [left_queries] and
    [right_queries]. *)
Fixpoint split_queries (query_indices : list nat) (queries : list query)
    (time_mid : Z) : result (list nat * list nat) :=
  match query_indices with
  | [] => Ok ([], [])
  | qi :: rest =>
      '(_, _, t, _) ← getitem queries qi;
      '(left_queries, right_queries) ← split_queries rest queries time_mid;
      if (t <? time_mid)%Z then Ok (qi :: left_queries, right_queries)
      else Ok (left_queries, qi :: right_queries)
  end.

(** The loop of the base case: every query of the list whose time is
    [time_left] gets [dsu.connected(u, v)] as its answer. *)
Fixpoint answer_leaf (fuel : nat) (query_indices : list nat) (queries : list query)
    (dsu : RollbackDSU.t) (time_left : Z) (answers : list bool) : result (list bool) :=
  match query_indices with
  | [] => Ok answers
  | qi :: rest =>
      '(u, v, t, qid) ← getitem queries qi;
      if (t =? time_left)%Z then
        c ← RollbackDSU.connected fuel dsu u v;
        answers' ← setitem answers qid c;
        answer_leaf fuel rest queries dsu time_left answers'
      else answer_leaf fuel rest queries dsu time_left answers
  end.

(** [_solve_recursive].  The mutable objects it shares with its caller, the
    DSU and [self.answers], are threaded as a pair; [depth] bounds the
    depth of the recursion, [fuel] the loop of [find]. *)
Fixpoint solve_recursive (depth fuel : nat) (edges : list edge)
    (query_indices : list nat) (queries : list query)
    (st : RollbackDSU.t * list bool) (time_left time_right : Z)
    : result (RollbackDSU.t * list bool) :=
  let '(dsu, answers) := st in
  match query_indices with
  | [] => Ok st
  | _ :: _ =>
      if (time_right - time_left =? 1)%Z then
        answers' ← answer_leaf fuel query_indices queries dsu time_left answers;
        Ok (dsu, answers')
      else
        match depth with
        | 0 => OutOfFuel
        | S depth' =>
            let time_mid := ((time_left + time_right) `div` 2)%Z in
            let checkpoint := RollbackDSU.get_checkpoint dsu in
            dsu ← add_spanning fuel edges time_left time_mid dsu;
            '(left_queries, right_queries) ←
              split_queries query_indices queries time_mid;
            let left_edges :=
              filter (fun e => spans time_left time_mid e = false) edges in
            st ← solve_recursive depth' fuel left_edges left_queries queries
                   (dsu, answers) time_left time_mid;
            let right_edges :=
              filter (fun e => spans time_left time_mid e = false) edges in
            '(dsu, answers) ← solve_recursive depth' fuel right_edges right_queries
                   queries st time_mid time_right;
            dsu ← RollbackDSU.rollback_to fuel checkpoint dsu;
            Ok (dsu, answers)
        end
  end.

(** The body of [solve], keeping the local DSU in the result so that its
    final state can be inspected. *)
Definition solve_state (depth fuel : nat) (self : t)
    : result (RollbackDSU.t * list bool) :=
  let queries := queries_of (operations self) in
  let edges := edges_of (operations self) in
  let answers := replicate (length queries) false in
  time_right ← time_bound (operations self);
  solve_recursive depth fuel edges (seq 0 (length queries)) queries
    (RollbackDSU.init (n self), answers) 0 time_right.

(** [solve]: the updated object and the returned list [self.answers]. *)
Definition solve (depth fuel : nat) (self : t) : result (t * list bool) :=
  '(_, answers) ← solve_state depth fuel self;
  Ok (mk (n self) (operations self) answers, answers).

(** The batch built by [demo_offline_dynamic_connectivity]. *)
Definition demo : t :=
  let c := init 6 in
  let c := add_edge c 0 1 1 5 in
  let c := add_edge c 1 2 2 4 in
  let c := add_edge c 3 4 1 6 in
  let c := add_edge c 2 3 3 7 in
  let c := add_query c 0 2 1 in
  let c := add_query c 0 2 3 in
  let c := add_query c 0 4 3 in
  let c := add_query c 1 4 4 in
  add_query c 0 5 2.

End OfflineDynamicConnectivity.

(** ** Notions used in the statements *)

(** [path p x l r]: following the parent pointers of [p] from [x] visits the
    non-root nodes [l] (first [x] itself) and stops at the root [r]. *)
Inductive path (p : list nat) : nat → list nat → nat → Prop :=
| path_root r : p !! r = Some r → path p r [] r
| path_step x y l r :
    p !! x = Some y → y ≠ x → path p y l r → path p x (x :: l) r.

(** The parent array encodes a forest: from every element the parent
    pointers lead to a root (there is no cycle). *)
Definition forest (p : list nat) : Prop :=
  ∀ x, x < length p → ∃ l r, path p x l r.

(** What [rollback] does to the parent array for one history entry, and for
    a whole history (the last entry first). *)
Definition undo_entry (p : list nat) (e : RollbackDSU.entry) : list nat :=
  match e with
  | None => p
  | Some (node, old_parent, _) => <[node:=old_parent]> p
  end.

Definition undo_all (h : list RollbackDSU.entry) (p : list nat) : list nat :=
  foldl undo_entry p (reverse h).

(** The invariant of the states that calls can reach. *)
Record wf (d : RollbackDSU.t) : Prop := mk_wf {
  wf_size : length (RollbackDSU.size d) = length (RollbackDSU.parent d);
  wf_forest : forest (RollbackDSU.parent d);
  wf_history : ∀ node old_parent old_size,
    Some (node, old_parent, old_size) ∈ RollbackDSU.history d →
    old_parent = node ∧ node < length (RollbackDSU.parent d);
  wf_undo : undo_all (RollbackDSU.history d) (RollbackDSU.parent d)
            = seq 0 (length (RollbackDSU.parent d))
}.

(** The number of elements whose root, as [find] computes it, is [r]. *)
Definition component_count (fuel : nat) (d : RollbackDSU.t) (r : nat) : nat :=
  length (filter (λ x, RollbackDSU.find fuel d x = Ok r)
                 (seq 0 (length (RollbackDSU.parent d)))).

(** An edge is usable at time [t] iff [validFrom <= t < validUntil]. *)
Definition active_at (t : Z) (e : OfflineDynamicConnectivity.edge) : bool :=
  let '(_, _, valid_from, valid_until) := e in
  (valid_from <=? t)%Z && (t <? valid_until)%Z.

(** The reference answer of a query: merge, on a fresh structure, exactly
    the edges active at the query's time, then ask [connected]. *)
Fixpoint union_all (fuel : nat) (es : list OfflineDynamicConnectivity.edge)
    (d : RollbackDSU.t) : result RollbackDSU.t :=
  match es with
  | [] => Ok d
  | (u, v, _, _) :: es' =>
      '(d', _) ← RollbackDSU.union fuel d u v; union_all fuel es' d'
  end.

Definition reference_answer (fuel n : nat)
    (edges : list OfflineDynamicConnectivity.edge)
    (q : OfflineDynamicConnectivity.query) : result bool :=
  let '(u, v, t, _) := q in
  d ← union_all fuel (filter (λ e, active_at t e = true) edges) (RollbackDSU.init n);
  RollbackDSU.connected fuel d u v.

(** The times the code takes the maximum of, listed by kind of operation:
    the [time_start] of every edge and the [time] of every query. *)
Definition start_times (ops : list OfflineDynamicConnectivity.operation) : list Z :=
  ((λ e : OfflineDynamicConnectivity.edge, let '(_, _, time_start, _) := e in time_start)
     <$> OfflineDynamicConnectivity.edges_of ops) ++
  ((λ q : OfflineDynamicConnectivity.query, let '(_, _, time, _) := q in time)
     <$> OfflineDynamicConnectivity.queries_of ops).

(** The bound as the specification words it:
    [1 + max(over all edges: validUntil; over all queries: t)]. *)
Definition spec_time_bound (ops : list OfflineDynamicConnectivity.operation)
    : result Z :=
  m ← OfflineDynamicConnectivity.py_max
        (((λ e : OfflineDynamicConnectivity.edge, let '(_, _, _, time_end) := e in time_end)
            <$> OfflineDynamicConnectivity.edges_of ops) ++
         ((λ q : OfflineDynamicConnectivity.query, let '(_, _, time, _) := q in time)
            <$> OfflineDynamicConnectivity.queries_of ops));
  Ok (1 + m)%Z.

(** A registration call, and the solver after a sequence of them. *)
Inductive registration : Type :=
| AddEdge (u v : nat) (time_start time_end : Z)
| AddQuery (u v : nat) (time : Z).

Definition register (c : OfflineDynamicConnectivity.t) (r : registration)
    : OfflineDynamicConnectivity.t :=
  match r with
  | AddEdge u v time_start time_end =>
      OfflineDynamicConnectivity.add_edge c u v time_start time_end
  | AddQuery u v time => OfflineDynamicConnectivity.add_query c u v time
  end.

Definition batch (n : nat) (rs : list registration) : OfflineDynamicConnectivity.t :=
  foldl register (OfflineDynamicConnectivity.init n) rs.

(** The edges, the queries and the times of [op[3]] that a sequence of
    registrations carries, in the order of registration. *)
Definition reg_edges (rs : list registration) : list (nat * nat * Z * Z) :=
  omap (λ r, match r with
             | AddEdge u v time_start time_end => Some (u, v, time_start, time_end)
             | AddQuery _ _ _ => None
             end) rs.

Definition reg_queries (rs : list registration) : list (nat * nat * Z) :=
  omap (λ r, match r with
             | AddQuery u v time => Some (u, v, time)
             | AddEdge _ _ _ _ => None
             end) rs.

Definition reg_times (rs : list registration) : list Z :=
  (λ r, match r with
        | AddEdge _ _ time_start _ => time_start
        | AddQuery _ _ time => time
        end) <$> rs.

(** A query with the id [add_query] gives it: its rank among the queries. *)
Definition with_id (i : nat) (q : nat * nat * Z) : nat * nat * Z * nat :=
  let '(u, v, t) := q in (u, v, t, i).

(** A batch of queries only, registered in order on a fresh solver. *)
Definition query_batch (n : nat) (qs : list (nat * nat * Z))
    : OfflineDynamicConnectivity.t :=
  batch n ((λ q : nat * nat * Z, let '(u, v, t) := q in AddQuery u v t) <$> qs).

(** The input contract: node ids in [[0, n)], [0 <= validFrom < validUntil]
    for an edge, [0 <= t] for a query. *)
Definition valid_registration (n : nat) (r : registration) : Prop :=
  match r with
  | AddEdge u v time_start time_end =>
      u < n ∧ v < n ∧ (0 ≤ time_start < time_end)%Z
  | AddQuery u v time => u < n ∧ v < n ∧ (0 ≤ time)%Z
  end.

(** What the recursion needs of its arguments to run without an
    [IndexError]: edges between existing nodes, and query indices that point
    into [queries] at queries between existing nodes with an id inside
    [self.answers]. *)
Definition edges_ok (n : nat) (edges : list OfflineDynamicConnectivity.edge) : Prop :=
  ∀ u v time_start time_end, (u, v, time_start, time_end) ∈ edges → u < n ∧ v < n.

Definition queries_ok (n : nat) (queries : list OfflineDynamicConnectivity.query)
    (n_answers : nat) (query_indices : list nat) : Prop :=
  ∀ qi, qi ∈ query_indices →
    ∃ u v t qid, queries !! qi = Some (u, v, t, qid) ∧ u < n ∧ v < n ∧ qid < n_answers.

(** On a structure without any merge, [connected(u, v)] is [u == v]: the
    answer expected for the query stored at index [i] of [queries]. *)
Definition trivial_answer (queries : list (nat * nat * Z * nat)) (i : nat)
    : option bool :=
  (λ q : nat * nat * Z * nat, let '(u, v, _, _) := q in u =? v) <$> queries !! i.

(** The queries of the list sit in [queries] under their own index as id,
    join existing nodes, fall in the segment [[tl, tr)] and have a slot in
    the answers. *)
Definition ready (n : nat) (queries : list (nat * nat * Z * nat)) (tl tr : Z)
    (n_answers : nat) (qis : list nat) : Prop :=
  ∀ qi, qi ∈ qis →
    ∃ u v t, queries !! qi = Some (u, v, t, qi) ∧ u < n ∧ v < n ∧
             (tl ≤ t < tr)%Z ∧ qi < n_answers.

(** A call that undoes: [rollback] or [rollback_to]. *)
Definition is_rollback (c : RollbackDSU.call) : bool :=
  match c with
  | RollbackDSU.Rollback | RollbackDSU.RollbackTo _ => true
  | _ => false
  end.

(** [size] is right at the roots: for every root [r], [size[r]] is the
    number of elements whose root is [r]. *)
Definition sized (d : RollbackDSU.t) : Prop :=
  ∀ fuel r, length (RollbackDSU.parent d) ≤ fuel →
    RollbackDSU.parent d !! r = Some r →
    RollbackDSU.size d !! r = Some (Z.of_nat (component_count fuel d r)).




(** Trees are shallow for their recorded size: an element [k] parent
    pointers away from its root [r] has [2 ^ k <= size[r]]. *)
Definition shallow (d : RollbackDSU.t) : Prop :=
  ∀ x l r, path (RollbackDSU.parent d) x l r →
    ∃ s, RollbackDSU.size d !! r = Some s ∧ (2 ^ Z.of_nat (length l) ≤ s)%Z.

(** What [connected] says in state [d] about the query stored at index
    [i] of [queries]. *)
Definition answer_in (fuel : nat) (d : RollbackDSU.t)
    (queries : list (nat * nat * Z * nat)) (i : nat) : option bool :=
  match queries !! i with
  | Some (u, v, _, _) =>
      match RollbackDSU.connected fuel d u v with
      | Ok b => Some b
      | _ => None
      end
  | None => None
  end.

(** ** Results as a monad: inversion *)

Lemma bind_Ok {A B} (f : A → result B) (m : result A) (b : B) :
  m ≫= f = Ok b → ∃ a, m = Ok a ∧ f a = Ok b.
Proof. destruct m; simpl; intros H; try discriminate. eauto. Qed.

Lemma bind_eq {A B} (f : A → result B) (m : result A) (a : A) :
  m = Ok a → m ≫= f = f a.
Proof. by intros ->. Qed.

Ltac inv_bind H :=
  let a := fresh "a" in
  let E := fresh "E" in
  apply bind_Ok in H as (a & E & H).

Lemma getitem_Ok {A} (l : list A) i a : getitem l i = Ok a ↔ l !! i = Some a.
Proof. unfold getitem. destruct (l !! i); split; congruence. Qed.

Lemma getitem_lt {A} (l : list A) i : i < length l → ∃ a, getitem l i = Ok a.
Proof.
  intros H. destruct (lookup_lt_is_Some_2 l i H) as [a Ha].
  exists a. by apply getitem_Ok.
Qed.

Lemma setitem_Ok {A} (l l' : list A) i v :
  setitem l i v = Ok l' ↔ i < length l ∧ l' = <[i:=v]> l.
Proof.
  unfold setitem. case_decide; split.
  - by intros [= <-].
  - by intros [_ ->].
  - done.
  - intros [? _]. lia.
Qed.

Lemma setitem_lt {A} (l : list A) i v :
  i < length l → setitem l i v = Ok (<[i:=v]> l).
Proof. intros. by apply setitem_Ok. Qed.

Lemma pop_nil {A} : pop (@nil A) = None.
Proof. reflexivity. Qed.

Lemma pop_snoc {A} (l : list A) a : pop (l ++ [a]) = Some (l, a).
Proof. unfold pop. by rewrite reverse_snoc, reverse_involutive. Qed.

Lemma pop_Some {A} (l l' : list A) a : pop l = Some (l', a) → l = l' ++ [a].
Proof.
  unfold pop. destruct (reverse l) as [|b r] eqn:E; [done|].
  intros [= <- <-]. rewrite <- (reverse_involutive l), E. by rewrite reverse_cons.
Qed.

Lemma pop_None {A} (l : list A) : pop l = None → l = [].
Proof.
  unfold pop. destruct (reverse l) eqn:E; [|done].
  intros _. rewrite <- (reverse_involutive l), E. done.
Qed.

(** ** Paths and [find] *)

Section paths.
Import RollbackDSU.
Implicit Types (p : list nat) (l : list nat) (x y r : nat).

Lemma path_end_root p x l r : path p x l r → p !! r = Some r.
Proof. induction 1; auto. Qed.

Lemma path_start_lt p x l r : path p x l r → x < length p.
Proof. destruct 1; eauto using lookup_lt_Some. Qed.

Lemma path_det p x l r l' r' :
  path p x l r → path p x l' r' → l = l' ∧ r = r'.
Proof.
  intros H. revert l' r'. induction H as [r Hr|x y l r Hx Hne H IH]; intros l' r' H'.
  - inversion H' as [r0 Hr0|x0 y0 l0 r0 Hx0 Hne0 Hp0]; subst; [done|congruence].
  - inversion H' as [r0 Hr0|x0 y0 l0 r0 Hx0 Hne0 Hp0]; subst; [congruence|].
    assert (y0 = y) as -> by congruence.
    destruct (IH _ _ Hp0) as [-> ->]. done.
Qed.

Lemma path_suffix p x l r z :
  path p x l r → z ∈ l → ∃ l1 l2, l = l1 ++ l2 ∧ path p z l2 r.
Proof.
  induction 1 as [|x y l r Hx Hne H IH]; intros Hz.
  - by apply elem_of_nil in Hz.
  - destruct (decide (z = x)) as [->|Hzx].
    + exists [], (x :: l). split; [done|]. by econstructor.
    + apply elem_of_cons in Hz as [?|Hz]; [done|].
      destruct (IH Hz) as (l1 & l2 & -> & Hp).
      exists (x :: l1), l2. done.
Qed.

Lemma path_NoDup p x l r : path p x l r → NoDup (l ++ [r]).
Proof.
  induction 1 as [r Hr|x y l r Hx Hne H IH]; simpl.
  - apply NoDup_singleton.
  - apply NoDup_cons. split; [|done].
    intros Hin. apply elem_of_app in Hin as [Hin|Hin].
    + destruct (path_suffix _ _ _ _ _ H Hin) as (l1 & l2 & -> & Hp).
      assert (path p x (x :: l1 ++ l2) r) as Hp' by (by econstructor).
      destruct (path_det _ _ _ _ _ _ Hp Hp') as [El _].
      apply (f_equal length) in El. simpl in El. rewrite length_app in El. lia.
    + apply list_elem_of_singleton in Hin as ->.
      apply path_end_root in H. congruence.
Qed.

Lemma path_elem_lt p x l r z : path p x l r → z ∈ l ++ [r] → z < length p.
Proof.
  induction 1 as [r Hr|x y l r Hx Hne H IH]; simpl; intros Hz.
  - apply list_elem_of_singleton in Hz as ->. eauto using lookup_lt_Some.
  - apply elem_of_cons in Hz as [->|Hz]; eauto using lookup_lt_Some.
Qed.

(** A path visits distinct elements of the array, so it is shorter than
    the array. *)
Lemma path_length p x l r : path p x l r → length l < length p.
Proof.
  intros H.
  assert (length (l ++ [r]) ≤ length (seq 0 (length p))) as Hle.
  { apply submseteq_length, NoDup_submseteq; [by eapply path_NoDup|].
    intros z Hz. apply elem_of_seq. split; [lia|].
    simpl. by eapply path_elem_lt. }
  rewrite length_app, length_seq in Hle. simpl in Hle. lia.
Qed.

Lemma path_find_loop p x l r fuel :
  path p x l r → length l < fuel → find_loop fuel p x = Ok r.
Proof.
  intros H. revert fuel. induction H as [r Hr|x y l r Hx Hne H IH]; intros fuel Hf.
  - destruct fuel; [lia|]. simpl. apply getitem_Ok in Hr. rewrite Hr. simpl.
    by rewrite Nat.eqb_refl.
  - destruct fuel; [simpl in Hf; lia|]. simpl in *.
    apply getitem_Ok in Hx. rewrite Hx. simpl.
    apply Nat.eqb_neq in Hne. rewrite Hne. apply IH. lia.
Qed.

Lemma find_loop_path p x r fuel :
  find_loop fuel p x = Ok r → ∃ l, path p x l r ∧ length l < fuel.
Proof.
  revert x. induction fuel as [|fuel IH]; intros x H; [done|].
  simpl in H. inv_bind H. apply getitem_Ok in E.
  destruct (a =? x) eqn:Eq.
  - apply Nat.eqb_eq in Eq as ->. injection H as ->.
    exists []. split; [by constructor|simpl; lia].
  - apply Nat.eqb_neq in Eq. destruct (IH _ H) as (l & Hp & Hl).
    exists (x :: l). split; [by econstructor|simpl; lia].
Qed.

(** In a forest [find] returns within [len(parent)] iterations. *)
Lemma forest_find p x fuel :
  forest p → x < length p → length p ≤ fuel →
  ∃ l r, path p x l r ∧ find_loop fuel p x = Ok r.
Proof.
  intros Hf Hx Hfuel. destruct (Hf x Hx) as (l & r & Hp).
  exists l, r. split; [done|]. eapply path_find_loop; [done|].
  apply path_length in Hp. lia.
Qed.

Lemma find_loop_mono p x r fuel fuel' :
  find_loop fuel p x = Ok r → fuel ≤ fuel' → find_loop fuel' p x = Ok r.
Proof.
  intros H Hle. apply find_loop_path in H as (l & Hp & Hl).
  eapply path_find_loop; [done|lia].
Qed.

End paths.

(** ** The invariant is kept by every call *)

Section invariant.
Import RollbackDSU.
Implicit Types (d : t) (p : list nat) (x y r : nat).

Lemma path_link p x l r a c :
  path p x l r → p !! a = Some a → p !! c = Some c → a ≠ c →
  path (<[c:=a]> p) x (if decide (r = c) then l ++ [c] else l)
                      (if decide (r = c) then a else r).
Proof.
  intros H Ha Hc Hac.
  induction H as [r Hr|x y l r Hx Hne H IH].
  - case_decide as Hrc.
    + subst r. simpl. econstructor.
      * apply list_lookup_insert_eq. by eapply lookup_lt_Some.
      * done.
      * constructor. by rewrite list_lookup_insert_ne.
    + constructor. by rewrite list_lookup_insert_ne.
  - assert (x ≠ c) by congruence.
    assert (<[c:=a]> p !! x = Some y) by (by rewrite list_lookup_insert_ne).
    case_decide; simpl; econstructor; eauto.
Qed.

Lemma path_link_root p x l r a c :
  path p x l r → p !! a = Some a → p !! c = Some c → a ≠ c →
  r = a ∨ r = c → ∃ l', path (<[c:=a]> p) x l' a.
Proof.
  intros H Ha Hc Hac Hr.
  pose proof (path_link _ _ _ _ a c H Ha Hc Hac) as H'.
  destruct (decide (r = c)) as [->|Hrc]; [by eauto|].
  destruct Hr as [-> | ->]; [by eauto|done].
Qed.

Lemma path_cut p x l r node :
  path p x l r → ∃ l' r', path (<[node:=node]> p) x l' r'.
Proof.
  induction 1 as [r Hr|x y l r Hx Hne H IH].
  - exists [], r. constructor.
    destruct (decide (node = r)) as [->|].
    + apply list_lookup_insert_eq. by eapply lookup_lt_Some.
    + by rewrite list_lookup_insert_ne.
  - destruct (decide (node = x)) as [->|].
    + exists [], x. constructor.
      apply list_lookup_insert_eq. by eapply lookup_lt_Some.
    + destruct IH as (l' & r' & IH). exists (x :: l'), r'.
      apply path_step with y; [by rewrite list_lookup_insert_ne|done|done].
Qed.

Lemma forest_seq n : forest (seq 0 n).
Proof.
  intros x Hx. rewrite length_seq in Hx. exists [], x. constructor.
  by apply lookup_seq_lt.
Qed.

Lemma undo_all_nil p : undo_all [] p = p.
Proof. reflexivity. Qed.

Lemma undo_all_snoc h e p : undo_all (h ++ [e]) p = undo_all h (undo_entry p e).
Proof. unfold undo_all. by rewrite reverse_snoc. Qed.

Lemma wf_init n : wf (init n).
Proof.
  split; simpl.
  - by rewrite length_replicate, length_seq.
  - apply forest_seq.
  - intros ??? H. by apply elem_of_nil in H.
  - by rewrite undo_all_nil, length_seq.
Qed.

(** What a returning [union] has done. *)
Lemma union_Ok fuel d x y d' b :
  union fuel d x y = Ok (d', b) →
  ∃ rx ry, find fuel d x = Ok rx ∧ find fuel d y = Ok ry ∧
    ((rx = ry ∧ b = false ∧ d' = set_history d (history d ++ [None])) ∨
     (rx ≠ ry ∧ b = true ∧
      ∃ a c sa sc,
        ((a = rx ∧ c = ry) ∨ (a = ry ∧ c = rx)) ∧
        size d !! a = Some sa ∧ size d !! c = Some sc ∧
        d' = mk (<[c:=a]> (parent d)) (<[a:=(sa + sc)%Z]> (size d))
                (history d ++ [Some (c, c, sa)]))).
Proof.
  unfold union. intros H.
  apply bind_Ok in H as (rx & Hrx & H). apply bind_Ok in H as (ry & Hry & H).
  exists rx, ry. split; [done|]. split; [done|].
  destruct (rx =? ry) eqn:Eq.
  - apply Nat.eqb_eq in Eq. left. by injection H as <- <-.
  - apply Nat.eqb_neq in Eq. right.
    apply bind_Ok in H as (sx & Hsx & H). apply bind_Ok in H as (sy & Hsy & H).
    apply getitem_Ok in Hsx, Hsy.
    pose proof Hrx as Hpx. pose proof Hry as Hpy.
    apply find_loop_path in Hpx as (lx & Hpx & _).
    apply find_loop_path in Hpy as (ly & Hpy & _).
    apply path_end_root in Hpx, Hpy.
    destruct (sx <? sy)%Z.
    + apply bind_Ok in H as (op & Hop & H). apply bind_Ok in H as (os & Hos & H).
      apply bind_Ok in H as (p' & Hp' & H). apply bind_Ok in H as (s1 & Hs1 & H).
      apply bind_Ok in H as (s2 & Hs2 & H). apply bind_Ok in H as (s' & Hs' & H).
      simpl in *. apply getitem_Ok in Hop, Hos, Hs1, Hs2.
      apply setitem_Ok in Hp' as [_ ->]. apply setitem_Ok in Hs' as [_ ->].
      injection H as <- <-.
      assert (op = rx) as -> by congruence.
      assert (os = sy) as -> by congruence.
      assert (s1 = sy) as -> by congruence.
      assert (s2 = sx) as -> by congruence.
      split; [done|]. split; [done|]. exists ry, rx, sy, sx. eauto 10.
    + apply bind_Ok in H as (op & Hop & H). apply bind_Ok in H as (os & Hos & H).
      apply bind_Ok in H as (p' & Hp' & H). apply bind_Ok in H as (s1 & Hs1 & H).
      apply bind_Ok in H as (s2 & Hs2 & H). apply bind_Ok in H as (s' & Hs' & H).
      simpl in *. apply getitem_Ok in Hop, Hos, Hs1, Hs2.
      apply setitem_Ok in Hp' as [_ ->]. apply setitem_Ok in Hs' as [_ ->].
      injection H as <- <-.
      assert (op = ry) as -> by congruence.
      assert (os = sx) as -> by congruence.
      assert (s1 = sx) as -> by congruence.
      assert (s2 = sy) as -> by congruence.
      split; [done|]. split; [done|]. exists rx, ry, sx, sy. eauto 10.
Qed.

(** On a well-formed state [union] returns for in-range arguments. *)
Lemma union_total fuel d x y :
  wf d → x < length (parent d) → y < length (parent d) →
  length (parent d) ≤ fuel →
  ∃ d' b, union fuel d x y = Ok (d', b).
Proof.
  intros [Hs Hf Hh _] Hx Hy Hfuel.
  destruct (forest_find _ _ _ Hf Hx Hfuel) as (lx & rx & Hpx & Hrx).
  destruct (forest_find _ _ _ Hf Hy Hfuel) as (ly & ry & Hpy & Hry).
  unfold union, find. rewrite Hrx, Hry. simpl.
  destruct (rx =? ry); [eauto|].
  apply path_end_root in Hpx, Hpy.
  assert (rx < length (size d)) as Hlx by (rewrite Hs; by eapply lookup_lt_Some).
  assert (ry < length (size d)) as Hly by (rewrite Hs; by eapply lookup_lt_Some).
  destruct (getitem_lt _ _ Hlx) as [sx Hsx]. destruct (getitem_lt _ _ Hly) as [sy Hsy].
  rewrite Hsx, Hsy. simpl.
  apply getitem_Ok in Hpx, Hpy.
  destruct (sx <? sy)%Z; simpl.
  all: repeat (first [ rewrite Hpx | rewrite Hpy | rewrite Hsx | rewrite Hsy
                     | rewrite setitem_lt by lia ]; simpl).
  all: eauto.
Qed.

Lemma wf_history_snoc_None d :
  wf d → wf (set_history d (history d ++ [None])).
Proof.
  intros [Hs Hf Hh Hu]. split; simpl; try done.
  - intros node op os Hin. apply elem_of_app in Hin as [Hin|Hin]; [eauto|].
    by apply list_elem_of_singleton in Hin.
  - by rewrite undo_all_snoc.
Qed.

Lemma wf_union fuel d x y d' b :
  wf d → union fuel d x y = Ok (d', b) → wf d'.
Proof.
  intros Hwf H. apply union_Ok in H as (rx & ry & Hrx & Hry & H).
  destruct H as [(_ & _ & ->)|(Hne & _ & a & c & sa & sc & Hac & Hsa & Hsc & ->)].
  { by apply wf_history_snoc_None. }
  apply find_loop_path in Hrx as (lx & Hpx & _).
  apply find_loop_path in Hry as (ly & Hpy & _).
  apply path_end_root in Hpx, Hpy.
  assert (parent d !! a = Some a ∧ parent d !! c = Some c ∧ a ≠ c) as (Ha & Hc & Hne').
  { destruct Hac as [[-> ->]|[-> ->]]; eauto. }
  destruct Hwf as [Hs Hf Hh Hu]. split; simpl.
  - by rewrite !length_insert.
  - intros z Hz. rewrite length_insert in Hz. destruct (Hf z Hz) as (l & r & Hp).
    eexists _, _. by apply path_link.
  - rewrite length_insert. intros node op os Hin.
    apply elem_of_app in Hin as [Hin|Hin]; [eauto|].
    apply list_elem_of_singleton in Hin. injection Hin as -> -> ->.
    split; [done|]. by eapply lookup_lt_Some.
  - rewrite undo_all_snoc, length_insert. simpl.
    rewrite list_insert_insert_eq, list_insert_id; done.
Qed.

(** On a well-formed state [rollback] pops the last history entry and makes
    the saved node a root again; the size array is not touched. *)
Lemma rollback_wf fuel d :
  wf d →
  rollback fuel d = Ok
    match pop (history d) with
    | None => d
    | Some (h, None) => set_history d h
    | Some (h, Some (node, _, _)) => mk (<[node:=node]> (parent d)) (size d) h
    end.
Proof.
  intros [Hs Hf Hh Hu]. unfold rollback.
  destruct (pop (history d)) as [[h e]|] eqn:Hpop; [|done].
  destruct e as [[[node op] os]|]; [|done].
  apply pop_Some in Hpop.
  destruct (Hh node op os) as [-> Hlt].
  { rewrite Hpop. apply elem_of_app. right. by apply list_elem_of_singleton. }
  simpl. rewrite setitem_lt by done. simpl.
  rewrite Nat.eqb_refl. simpl. rewrite Nat.eqb_refl. done.
Qed.

Lemma wf_rollback fuel d d' : wf d → rollback fuel d = Ok d' → wf d'.
Proof.
  intros Hwf H. rewrite rollback_wf in H by done. injection H as <-.
  destruct (pop (history d)) as [[h e]|] eqn:Hpop; [|done].
  apply pop_Some in Hpop. destruct Hwf as [Hs Hf Hh Hu].
  rewrite Hpop in Hh, Hu. rewrite undo_all_snoc in Hu.
  destruct e as [[[node op] os]|]; split; simpl in *; try done.
  - by rewrite length_insert.
  - intros z Hz. rewrite length_insert in Hz. destruct (Hf z Hz) as (l & r & Hp).
    by eapply path_cut.
  - rewrite length_insert. intros ??? Hin. eapply Hh, elem_of_app. left. exact Hin.
  - destruct (Hh node op os) as [-> _].
    { apply elem_of_app. right. by apply list_elem_of_singleton. }
    by rewrite length_insert.
  - intros ??? Hin. eapply Hh, elem_of_app. left. exact Hin.
Qed.

Lemma rollback_size fuel d d' :
  wf d → rollback fuel d = Ok d' → size d' = size d.
Proof.
  intros Hwf H. rewrite rollback_wf in H by done. injection H as <-.
  by destruct (pop (history d)) as [[h [[[??]?]|]]|].
Qed.

Lemma rollback_history fuel d d' h e :
  wf d → history d = h ++ [e] → rollback fuel d = Ok d' → history d' = h.
Proof.
  intros Hwf Hh H. rewrite rollback_wf in H by done. injection H as <-.
  rewrite Hh, pop_snoc. by destruct e as [[[??]?]|].
Qed.

Lemma rollback_length fuel d d' :
  wf d → rollback fuel d = Ok d' → length (parent d') = length (parent d).
Proof.
  intros Hwf H. rewrite rollback_wf in H by done. injection H as <-.
  destruct (pop (history d)) as [[h [[[??]?]|]]|]; simpl; try done.
  apply length_insert.
Qed.

Lemma rollback_to_loop_wf iters fuel c d :
  wf d → length (history d) ≤ iters →
  ∃ d', rollback_to_loop iters fuel c d = Ok d' ∧ wf d' ∧
        size d' = size d ∧ history d' = take c (history d) ∧
        length (parent d') = length (parent d).
Proof.
  revert d. induction iters as [|iters IH]; intros d Hwf Hlen.
  - simpl. case_decide; [lia|]. exists d. rewrite take_ge by lia. done.
  - simpl. case_decide as Hc.
    + destruct (pop (history d)) as [[h e]|] eqn:Hpop.
      2:{ apply pop_None in Hpop. rewrite Hpop in Hc. simpl in Hc. lia. }
      apply pop_Some in Hpop.
      pose proof (rollback_wf fuel d Hwf) as Hr.
      destruct (rollback fuel d) as [d1| | |] eqn:Hd1; try discriminate. clear Hr.
      pose proof (wf_rollback _ _ _ Hwf Hd1) as Hwf1.
      pose proof (rollback_size _ _ _ Hwf Hd1) as Hs1.
      pose proof (rollback_history _ _ _ _ _ Hwf Hpop Hd1) as Hh1.
      rewrite Hpop, length_app in Hlen, Hc. simpl in Hlen, Hc.
      pose proof (rollback_length _ _ _ Hwf Hd1) as Hl1.
      destruct (IH d1 Hwf1) as (d' & Hd' & Hwf' & Hs' & Hh' & Hl'); [rewrite Hh1; lia|].
      exists d'. simpl. split; [done|]. split; [done|]. split; [congruence|].
      split; [|congruence].
      rewrite Hh', Hh1, Hpop. rewrite take_app_le by lia. done.
    + exists d. rewrite take_ge by lia. done.
Qed.

Lemma rollback_to_wf fuel c d :
  wf d →
  ∃ d', rollback_to fuel c d = Ok d' ∧ wf d' ∧
        size d' = size d ∧ history d' = take c (history d) ∧
        length (parent d') = length (parent d).
Proof. intros Hwf. by apply rollback_to_loop_wf. Qed.

Lemma find_Ok_lt fuel d x r : find fuel d x = Ok r → x < length (parent d).
Proof.
  intros H. apply find_loop_path in H as (l & Hp & _). by eapply path_start_lt.
Qed.

Lemma wf_step fuel d c d' : wf d → step fuel d c = Ok d' → wf d'.
Proof.
  intros Hwf H. destruct c as [x y| |c|x|x y]; simpl in H.
  - apply bind_Ok in H as ([d1 b] & Hu & H). injection H as <-.
    by eapply wf_union.
  - by eapply wf_rollback.
  - destruct (rollback_to_wf fuel c d Hwf) as (d1 & Hd1 & Hwf1 & _). congruence.
  - apply bind_Ok in H as (? & _ & H). by injection H as <-.
  - apply bind_Ok in H as (? & _ & H). by injection H as <-.
Qed.

(** Every state reached from a fresh structure is well formed. *)
Lemma wf_run fuel cs d d' : wf d → run fuel d cs = Ok d' → wf d'.
Proof.
  revert d. induction cs as [|c cs IH]; intros d Hwf H; simpl in H.
  - by injection H as <-.
  - apply bind_Ok in H as (d1 & Hd1 & H). eauto using wf_step.
Qed.

End invariant.

(** ** Properties of [RollbackDSU] *)

Section rollback_dsu.
Import RollbackDSU.
Implicit Types (d : t) (x y : nat).

Lemma connected_parent fuel d d' x y :
  parent d' = parent d → connected fuel d' x y = connected fuel d x y.
Proof. unfold connected, find. by intros ->. Qed.

(** After a merging [union] both arguments have the surviving root. *)
Lemma union_true_find fuel d x y d' :
  length (parent d) ≤ fuel →
  union fuel d x y = Ok (d', true) →
  ∃ a, find fuel d' x = Ok a ∧ find fuel d' y = Ok a.
Proof.
  intros Hfuel H. apply union_Ok in H as (rx & ry & Hrx & Hry & H).
  destruct H as [(_ & ? & _)|(Hne & _ & a & c & sa & sc & Hac & _ & _ & ->)]; [done|].
  apply find_loop_path in Hrx as (lx & Hpx & _).
  apply find_loop_path in Hry as (ly & Hpy & _).
  pose proof (path_end_root _ _ _ _ Hpx) as Hx.
  pose proof (path_end_root _ _ _ _ Hpy) as Hy.
  assert (parent d !! a = Some a ∧ parent d !! c = Some c ∧ a ≠ c) as (Ha & Hc & Hne').
  { destruct Hac as [[-> ->]|[-> ->]]; eauto. }
  destruct (path_link_root _ _ _ _ a c Hpx Ha Hc Hne') as (lx' & Hpx').
  { destruct Hac as [[-> ->]|[-> ->]]; auto. }
  destruct (path_link_root _ _ _ _ a c Hpy Ha Hc Hne') as (ly' & Hpy').
  { destruct Hac as [[-> ->]|[-> ->]]; auto. }
  exists a. unfold find. simpl. split.
  - eapply path_find_loop; [done|]. apply path_length in Hpx'.
    rewrite length_insert in Hpx'. lia.
  - eapply path_find_loop; [done|]. apply path_length in Hpy'.
    rewrite length_insert in Hpy'. lia.
Qed.

(** One [rollback] after a [union] restores the parent array and the
    history (the size array is another matter). *)
Lemma union_rollback fuel d x y d' b :
  wf d → union fuel d x y = Ok (d', b) →
  ∃ d'', rollback fuel d' = Ok d'' ∧ parent d'' = parent d ∧ history d'' = history d.
Proof.
  intros Hwf H. pose proof (wf_union _ _ _ _ _ _ Hwf H) as Hwf'.
  rewrite (rollback_wf fuel d' Hwf'). eexists. split; [done|].
  apply union_Ok in H as (rx & ry & Hrx & Hry & H).
  destruct H as [(_ & _ & ->)|(Hne & _ & a & c & sa & sc & Hac & _ & _ & ->)]; simpl.
  - by rewrite pop_snoc.
  - rewrite pop_snoc. simpl. split; [|done].
    apply find_loop_path in Hrx as (lx & Hpx & _).
    apply find_loop_path in Hry as (ly & Hpy & _).
    apply path_end_root in Hpx, Hpy.
    rewrite list_insert_insert_eq. apply list_insert_id.
    destruct Hac as [[-> ->]|[-> ->]]; done.
Qed.

(** C6: in a state reached from a fresh structure, right after [union(x, y)]
    has returned [True] the call [connected(x, y)] returns [True]; after the
    one matching [rollback] it returns what it returned before the union
    (which is [False]). *)
Theorem C6_union_connected_rollback fuel0 n cs fuel d x y d1 :
  run fuel0 (init n) cs = Ok d →
  length (parent d) ≤ fuel →
  union fuel d x y = Ok (d1, true) →
  connected fuel d1 x y = Ok true ∧
  ∃ d2, rollback fuel d1 = Ok d2 ∧
        connected fuel d2 x y = connected fuel d x y ∧
        connected fuel d x y = Ok false.
Proof.
  intros Hrun Hfuel Hu.
  pose proof (wf_run _ _ _ _ (wf_init n) Hrun) as Hwf.
  split.
  - destruct (union_true_find _ _ _ _ _ Hfuel Hu) as (a & Hx & Hy).
    unfold connected. rewrite Hx, Hy. simpl. by rewrite Nat.eqb_refl.
  - destruct (union_rollback _ _ _ _ _ _ Hwf Hu) as (d2 & Hr & Hp & _).
    exists d2. split; [done|]. split; [by apply connected_parent|].
    apply union_Ok in Hu as (rx & ry & Hrx & Hry & H).
    destruct H as [(_ & ? & _)|(Hne & _)]; [done|].
    unfold connected. rewrite Hrx, Hry. simpl.
    apply Nat.eqb_neq in Hne. by rewrite Hne.
Qed.

Lemma C6_witness :
  connected 3 (mk [0; 0; 2] [2; 1; 1]%Z [Some (1, 1, 1%Z)]) 0 1 = Ok true ∧
  ∃ d2, rollback 3 (mk [0; 0; 2] [2; 1; 1]%Z [Some (1, 1, 1%Z)]) = Ok d2 ∧
        connected 3 d2 0 1 = connected 3 (init 3) 0 1 ∧
        connected 3 (init 3) 0 1 = Ok false.
Proof.
  apply (C6_union_connected_rollback 3 3 [] 3 (init 3) 0 1).
  - reflexivity.
  - simpl. lia.
  - reflexivity.
Defined.

(** C7 (as the code has it): [rollback_to(c)] with [c] greater than the
    current history length returns normally and leaves the structure as it
    was; nothing is reported to the caller. *)
Theorem C7_rollback_to_beyond_history fuel c d :
  length (history d) < c → rollback_to fuel c d = Ok d.
Proof.
  intros Hc. unfold rollback_to.
  destruct (length (history d)) as [|k] eqn:Hlen; simpl; rewrite Hlen;
    case_decide; done || lia.
Qed.

Lemma C7_witness :
  rollback_to 2 5 (mk [0; 0] [2; 1]%Z [Some (1, 1, 1%Z)])
  = Ok (mk [0; 0] [2; 1]%Z [Some (1, 1, 1%Z)]).
Proof.
  apply (C7_rollback_to_beyond_history 2 5 (mk [0; 0] [2; 1]%Z [Some (1, 1, 1%Z)])).
  simpl. lia.
Defined.

(** C7, the claim as stated fails: after [union(0, 1)] on two elements the
    history has length 1, and [rollback_to(5)] is a call that returns, with
    the state untouched. *)
Lemma C7_counterexample :
  ∃ d, run 2 (init 2) [Union 0 1] = Ok d ∧
       length (history d) < 5 ∧
       rollback_to 2 5 d = Ok d.
Proof. eexists. split; [reflexivity|]. split; [simpl; lia|reflexivity]. Qed.

(** C10: in every state reached from a fresh structure, each saved tuple
    [(node, old_parent, old_size)] of the history has [old_parent == node];
    so [rollback] never enters the branch that assigns to [self.size], and
    [rollback] and [rollback_to] return with the size array as it was. *)
Theorem C10_rollback_keeps_size fuel0 n cs d :
  run fuel0 (init n) cs = Ok d →
  (∀ node old_parent old_size,
     Some (node, old_parent, old_size) ∈ history d → old_parent = node) ∧
  (∀ fuel, restores_size fuel d = Ok false) ∧
  (∀ fuel, ∃ d', rollback fuel d = Ok d' ∧ size d' = size d) ∧
  (∀ fuel c, ∃ d', rollback_to fuel c d = Ok d' ∧ size d' = size d).
Proof.
  intros Hrun. pose proof (wf_run _ _ _ _ (wf_init n) Hrun) as Hwf.
  split; [|split; [|split]].
  - intros node op os Hin. by destruct (wf_history d Hwf node op os Hin).
  - intros fuel. unfold restores_size.
    destruct (pop (history d)) as [[h [[[node op] os]|]]|] eqn:Hpop; try done.
    apply pop_Some in Hpop. destruct (wf_history d Hwf node op os) as [-> Hlt].
    { rewrite Hpop. apply elem_of_app. right. by apply list_elem_of_singleton. }
    simpl. rewrite setitem_lt by done. simpl.
    rewrite Nat.eqb_refl. simpl. by rewrite Nat.eqb_refl.
  - intros fuel. eexists. split; [by apply rollback_wf|].
    by destruct (pop (history d)) as [[h [[[??]?]|]]|].
  - intros fuel c. destruct (rollback_to_wf fuel c d Hwf) as (d' & H & _ & Hs & _).
    eauto.
Qed.

Lemma C10_witness :
  let d := mk [0; 0; 0] [3; 1; 1]%Z [Some (1, 1, 1%Z); None; Some (2, 2, 2%Z)] in
  (∀ node old_parent old_size,
     Some (node, old_parent, old_size) ∈ history d → old_parent = node) ∧
  (∀ fuel, restores_size fuel d = Ok false) ∧
  (∀ fuel, ∃ d', rollback fuel d = Ok d' ∧ size d' = size d) ∧
  (∀ fuel c, ∃ d', rollback_to fuel c d = Ok d' ∧ size d' = size d).
Proof.
  apply (C10_rollback_keeps_size 3 3 [Union 0 1; Union 1 0; Union 2 1]).
  reflexivity.
Defined.

(** C3, at the input where the code departs from it: on two elements,
    [union(0, 1)] followed by [rollback()] restores [parent] and [history]
    but leaves [size] at [[2, 1]], not at the [[1, 1]] it had before. *)
Theorem C3_size_not_restored fuel :
  ∃ d, run (S (S fuel)) (init 2) [Union 0 1; Rollback] = Ok d ∧
       parent d = parent (init 2) ∧ history d = history (init 2) ∧
       size (init 2) = [1; 1]%Z ∧ size d = [2; 1]%Z.
Proof. eexists. split; [reflexivity|]. done. Qed.

(** C5, at the input where the code departs from it: after [union(0, 1)]
    and [rollback()] on two elements the parent array is a forest and [0] is
    a root whose only member is itself, yet [size[0]] is [2]. *)
Theorem C5_size_of_root_wrong fuel :
  ∃ d, run (S (S fuel)) (init 2) [Union 0 1; Rollback] = Ok d ∧
       forest (parent d) ∧
       find (S (S fuel)) d 0 = Ok 0 ∧
       component_count (S (S fuel)) d 0 = 1 ∧
       size d !! 0 = Some 2%Z.
Proof.
  eexists. split; [reflexivity|]. split; [exact (forest_seq 2)|]. done.
Qed.

End rollback_dsu.

(** ** Properties of [OfflineDynamicConnectivity] *)

Section timeline.
Import OfflineDynamicConnectivity.

Lemma foldl_max_ge (l : list Z) z : (z ≤ foldl Z.max z l)%Z.
Proof.
  revert z. induction l as [|y l IH]; intros z; simpl; [lia|].
  specialize (IH (Z.max z y)). lia.
Qed.

Lemma foldl_max_spec (l : list Z) z :
  foldl Z.max z l ∈ z :: l ∧ ∀ y, y ∈ z :: l → (y ≤ foldl Z.max z l)%Z.
Proof.
  revert z. induction l as [|x l IH]; intros z; simpl.
  - split; [by left|]. intros y Hy. apply list_elem_of_singleton in Hy. lia.
  - destruct (IH (Z.max z x)) as [Hin Hle]. split.
    + apply elem_of_cons in Hin as [Hin|Hin].
      * rewrite Hin. destruct (Z.max_spec z x) as [[_ ->]|[_ ->]].
        -- right. by left.
        -- by left.
      * right. by right.
    + intros y Hy. apply elem_of_cons in Hy as [->|Hy].
      * pose proof (foldl_max_ge l (Z.max z x)). lia.
      * apply elem_of_cons in Hy as [->|Hy].
        -- pose proof (foldl_max_ge l (Z.max z x)). lia.
        -- apply Hle. by right.
Qed.

Lemma py_max_spec (l : list Z) :
  l ≠ [] → ∃ m, py_max l = Ok m ∧ m ∈ l ∧ ∀ y, y ∈ l → (y ≤ m)%Z.
Proof.
  destruct l as [|z l]; [done|]. intros _. eexists. split; [done|].
  apply foldl_max_spec.
Qed.

Lemma elem_of_start_times ops z : z ∈ op3 <$> ops ↔ z ∈ start_times ops.
Proof.
  unfold start_times. induction ops as [|[u v ts te|u v t qid] ops IH]; simpl.
  - done.
  - rewrite !elem_of_cons, IH. done.
  - rewrite elem_of_cons, IH, !elem_of_app, elem_of_cons. tauto.
Qed.

(** What the code computes as bound: for a non-empty batch, 1 plus the
    maximum over the [time_start] of every edge and the [time] of every
    query; no [time_end] enters it. *)
Lemma time_bound_max_start ops :
  ops ≠ [] →
  ∃ m, time_bound ops = Ok (m + 1)%Z ∧
       m ∈ start_times ops ∧ ∀ z, z ∈ start_times ops → (z ≤ m)%Z.
Proof.
  intros Hne. destruct (py_max_spec (op3 <$> ops)) as (m & Hm & Hin & Hle).
  { by destruct ops. }
  exists m. unfold time_bound. rewrite Hm. split; [done|]. split.
  - by apply elem_of_start_times.
  - intros z Hz. by apply Hle, elem_of_start_times.
Qed.

(** C4, at an input where the code departs from it.  With the edge
    [(0, 1, [0, 5))] and the query [(0, 1, 0)] the bound the code passes is
    [T = 1], where 1 plus the maximum over [validUntil] and the query times
    is 6.  With [T = 1] the top-level call is a base case, the edge is never
    merged and [solve] answers [False], although the edge is active at time
    0 (the reference answer is [True]); the same recursion started on
    [[0, 6)] answers [True]. *)
Theorem C4_bound_truncates_timeline depth fuel :
  let c := add_query (add_edge (init 2) 0 1 0 5) 0 1 0 in
  time_bound (operations c) = Ok 1%Z ∧
  spec_time_bound (operations c) = Ok 6%Z ∧
  (∃ self', solve (1 + depth) (2 + fuel) c = Ok (self', [false])) ∧
  reference_answer (2 + fuel) 2 (edges_of (operations c)) (0, 1, 0%Z, 0) = Ok true ∧
  (∃ d, solve_recursive (3 + depth) (2 + fuel)
          (edges_of (operations c)) [0] (queries_of (operations c))
          (RollbackDSU.init 2, [false]) 0 6
        = Ok (d, [true])).
Proof.
  simpl. split; [reflexivity|]. split; [reflexivity|].
  split; [eexists; reflexivity|]. split; [reflexivity|]. eexists. reflexivity.
Qed.

(** C1, at the input of the claim: on the batch of the demo [solve] returns
    [[False, True, True, True, False]]; the fourth answer, for the query
    [(1, 4, 4)], is [True], where the claim (and the text the demo prints)
    says [False]. *)
Theorem C1_demo_answers depth fuel :
  ∃ self', solve (4 + depth) (6 + fuel) demo
           = Ok (self', [false; true; true; true; false]).
Proof. eexists. reflexivity. Qed.

(** C2, at inputs where the code departs from it.  With the single edge
    [(0, 1, [0, 1))] the query [(0, 1, 1)] is answered from a state in which
    that edge, inactive at time 1, is merged: the answer is [True], the
    reference answer [False].  With the single edge [(0, 1, [1, 2))] the
    query [(0, 1, 1)] is answered from a state without that edge, active at
    time 1: the answer is [False], the reference answer [True]. *)
Theorem C2_leaf_state_not_active_edges depth fuel :
  let c1 := add_query (add_query (add_edge (init 2) 0 1 0 1) 0 1 0) 0 1 1 in
  let c2 := add_query (add_edge (init 2) 0 1 1 2) 0 1 1 in
  (∃ self', solve (2 + depth) (3 + fuel) c1 = Ok (self', [true; true])) ∧
  filter (λ e, active_at 1 e = true) (edges_of (operations c1)) = [] ∧
  reference_answer (3 + fuel) 2 (edges_of (operations c1)) (0, 1, 1%Z, 1) = Ok false ∧
  (∃ self', solve (2 + depth) (3 + fuel) c2 = Ok (self', [false])) ∧
  filter (λ e, active_at 1 e = true) (edges_of (operations c2)) = [(0, 1, 1%Z, 2%Z)] ∧
  reference_answer (3 + fuel) 2 (edges_of (operations c2)) (0, 1, 1%Z, 0) = Ok true.
Proof.
  simpl. split; [eexists; reflexivity|]. split; [reflexivity|].
  split; [reflexivity|]. split; [eexists; reflexivity|]. split; reflexivity.
Qed.

End timeline.

(** ** The recursion of [solve] *)

Section recursion.
Import OfflineDynamicConnectivity.
Implicit Types (d : RollbackDSU.t) (edges : list edge) (queries : list query).

Lemma union_history fuel d x y d' b :
  RollbackDSU.union fuel d x y = Ok (d', b) →
  length (RollbackDSU.parent d') = length (RollbackDSU.parent d) ∧
  ∃ e, RollbackDSU.history d' = RollbackDSU.history d ++ [e].
Proof.
  intros H. apply union_Ok in H as (rx & ry & _ & _ & H).
  destruct H as [(_ & _ & ->)|(_ & _ & a & c & sa & sc & _ & _ & _ & ->)]; simpl.
  - eauto.
  - rewrite length_insert. eauto.
Qed.

Lemma add_spanning_Ok fuel edges tl tm d d' :
  wf d → add_spanning fuel edges tl tm d = Ok d' →
  wf d' ∧ length (RollbackDSU.parent d') = length (RollbackDSU.parent d) ∧
  ∃ ext, RollbackDSU.history d' = RollbackDSU.history d ++ ext.
Proof.
  revert d. induction edges as [|[[[u v] ts] te] edges IH]; intros d Hwf H; simpl in H.
  - injection H as <-. split; [done|]. split; [done|]. exists []. by rewrite app_nil_r.
  - destruct (spans tl tm (u, v, ts, te)); [|by apply IH].
    apply bind_Ok in H as ([d1 b] & Hu & H).
    pose proof (wf_union _ _ _ _ _ _ Hwf Hu) as Hwf1.
    destruct (union_history _ _ _ _ _ _ Hu) as (Hlen & e & He).
    destruct (IH d1 Hwf1 H) as (Hwf' & Hlen' & ext & Hext).
    split; [done|]. split; [congruence|].
    exists (e :: ext). rewrite Hext, He, <- app_assoc. done.
Qed.

Lemma add_spanning_total fuel edges tl tm d :
  wf d → length (RollbackDSU.parent d) ≤ fuel →
  edges_ok (length (RollbackDSU.parent d)) edges →
  ∃ d', add_spanning fuel edges tl tm d = Ok d'.
Proof.
  revert d. induction edges as [|[[[u v] ts] te] edges IH]; intros d Hwf Hfuel Hok; simpl.
  - eauto.
  - assert (edges_ok (length (RollbackDSU.parent d)) edges) as Hok'.
    { intros ???? Hin. eapply Hok. right. exact Hin. }
    destruct (spans tl tm (u, v, ts, te)); [|by apply IH].
    destruct (Hok u v ts te) as [Hu Hv]; [by left|].
    destruct (union_total fuel d u v Hwf Hu Hv Hfuel) as (d1 & b & Hd1).
    rewrite Hd1. simpl.
    destruct (union_history _ _ _ _ _ _ Hd1) as (Hlen & _).
    apply IH; [by eapply wf_union|lia|by rewrite Hlen].
Qed.

(** The two lists built by the splitting loop. *)
Lemma split_queries_Ok qis queries tm l r :
  split_queries qis queries tm = Ok (l, r) →
  ∀ qi,
    (qi ∈ l ↔ qi ∈ qis ∧ ∃ u v t qid, queries !! qi = Some (u, v, t, qid) ∧ (t < tm)%Z) ∧
    (qi ∈ r ↔ qi ∈ qis ∧ ∃ u v t qid, queries !! qi = Some (u, v, t, qid) ∧ (tm ≤ t)%Z).
Proof.
  revert l r. induction qis as [|q qis IH]; intros l r H qi; simpl in H.
  - injection H as <- <-. rewrite !elem_of_nil. tauto.
  - apply bind_Ok in H as ([[[u v] t] qid] & Hq & H). apply getitem_Ok in Hq.
    apply bind_Ok in H as ([l' r'] & Hs & H).
    destruct (IH _ _ Hs qi) as [IHl IHr].
    destruct (Z.ltb_spec t tm) as [Ht|Ht]; injection H as <- <-;
      rewrite !elem_of_cons, ?IHl, ?IHr; split.
    all: split; intros Hyp.
    all: repeat match goal with
                | H : _ ∧ _ |- _ => destruct H
                | H : _ ∨ _ |- _ => destruct H
                | H : ∃ _, _ |- _ => destruct H
                end; simplify_eq.
    all: solve [ lia | eauto 10 | left; eauto 10 | right; eauto 10
               | split; [by left|]; eauto 10 | split; [by right|]; eauto 10 ].
Qed.

Lemma split_queries_total qis queries tm :
  (∀ qi, qi ∈ qis → is_Some (queries !! qi)) →
  ∃ l r, split_queries qis queries tm = Ok (l, r).
Proof.
  induction qis as [|q qis IH]; intros Hok; simpl; [eauto|].
  destruct (Hok q) as [[[[u v] t] qid] Hq]; [by left|].
  apply getitem_Ok in Hq. rewrite Hq. simpl.
  destruct IH as (l & r & ->); [intros; apply Hok; by right|]. simpl.
  destruct (t <? tm)%Z; eauto.
Qed.

Lemma answer_leaf_length fuel qis queries d tl ans ans' :
  answer_leaf fuel qis queries d tl ans = Ok ans' → length ans' = length ans.
Proof.
  revert ans. induction qis as [|q qis IH]; intros ans H; simpl in H.
  - by injection H as <-.
  - apply bind_Ok in H as ([[[u v] t] qid] & Hq & H).
    destruct (t =? tl)%Z; [|by apply IH].
    apply bind_Ok in H as (c & Hc & H). apply bind_Ok in H as (ans1 & Hans1 & H).
    apply setitem_Ok in Hans1 as [_ ->]. rewrite (IH _ H). apply length_insert.
Qed.

Lemma connected_total fuel d u v :
  wf d → length (RollbackDSU.parent d) ≤ fuel →
  u < length (RollbackDSU.parent d) → v < length (RollbackDSU.parent d) →
  ∃ b, RollbackDSU.connected fuel d u v = Ok b.
Proof.
  intros Hwf Hfuel Hu Hv. unfold RollbackDSU.connected, RollbackDSU.find.
  destruct (forest_find _ _ _ (wf_forest d Hwf) Hu Hfuel) as (? & ru & _ & ->).
  destruct (forest_find _ _ _ (wf_forest d Hwf) Hv Hfuel) as (? & rv & _ & ->).
  simpl. eauto.
Qed.

Lemma answer_leaf_total fuel qis queries d tl ans :
  wf d → length (RollbackDSU.parent d) ≤ fuel →
  queries_ok (length (RollbackDSU.parent d)) queries (length ans) qis →
  ∃ ans', answer_leaf fuel qis queries d tl ans = Ok ans'.
Proof.
  intros Hwf Hfuel. revert ans. induction qis as [|q qis IH]; intros ans Hok; simpl.
  - eauto.
  - destruct (Hok q) as (u & v & t & qid & Hq & Hu & Hv & Hqid); [by left|].
    apply getitem_Ok in Hq. rewrite Hq. simpl.
    assert (∀ ans1 : list bool, length ans1 = length ans →
              queries_ok (length (RollbackDSU.parent d)) queries (length ans1) qis) as Hok'.
    { intros ans1 -> qi Hqi. apply Hok. by right. }
    destruct (t =? tl)%Z; [|by apply IH, Hok'].
    destruct (connected_total fuel d u v Hwf Hfuel Hu Hv) as [b ->]. simpl.
    rewrite setitem_lt by done. simpl. apply IH, Hok', length_insert.
Qed.

Lemma solve_recursive_unfold depth fuel edges qis queries d ans tl tr :
  solve_recursive depth fuel edges qis queries (d, ans) tl tr =
  match qis with
  | [] => Ok (d, ans)
  | _ :: _ =>
      if (tr - tl =? 1)%Z then
        answers' ← answer_leaf fuel qis queries d tl ans; Ok (d, answers')
      else
        match depth with
        | 0 => OutOfFuel
        | S depth' =>
            let tm := ((tl + tr) `div` 2)%Z in
            d1 ← add_spanning fuel edges tl tm d;
            '(l, r) ← split_queries qis queries tm;
            st ← solve_recursive depth' fuel
                   (filter (λ e, spans tl tm e = false) edges) l queries
                   (d1, ans) tl tm;
            '(d2, answers') ← solve_recursive depth' fuel
                   (filter (λ e, spans tl tm e = false) edges) r queries
                   st tm tr;
            d3 ← RollbackDSU.rollback_to fuel (RollbackDSU.get_checkpoint d) d2;
            Ok (d3, answers')
        end
  end.
Proof. destruct depth; reflexivity. Qed.

(** A returning call of [_solve_recursive] leaves the history as it found
    it and keeps the state well formed. *)
Lemma solve_recursive_Ok depth fuel edges qis queries d ans tl tr d' ans' :
  wf d →
  solve_recursive depth fuel edges qis queries (d, ans) tl tr = Ok (d', ans') →
  wf d' ∧ RollbackDSU.history d' = RollbackDSU.history d ∧
  length (RollbackDSU.parent d') = length (RollbackDSU.parent d) ∧
  length ans' = length ans.
Proof.
  revert edges qis d ans tl tr d' ans'.
  induction depth as [|depth IH]; intros edges qis d ans tl tr d' ans' Hwf H;
    rewrite solve_recursive_unfold in H.
  all: destruct qis as [|q qis]; [by injection H as <- <-|].
  all: destruct (tr - tl =? 1)%Z.
  all: try (apply bind_Ok in H as (ans1 & Hleaf & H); injection H as <- <-;
            by rewrite (answer_leaf_length _ _ _ _ _ _ _ Hleaf)).
  { done. }
  cbv zeta in H.
  apply bind_Ok in H as (d1 & Hd1 & H).
  apply bind_Ok in H as ([l r] & Hsplit & H).
  apply bind_Ok in H as ([d2 ans2] & Hleft & H).
  apply bind_Ok in H as ([d3 ans3] & Hright & H).
  apply bind_Ok in H as (d4 & Hback & H). injection H as <- <-.
  destruct (add_spanning_Ok _ _ _ _ _ _ Hwf Hd1) as (Hwf1 & Hlen1 & ext & Hext).
  destruct (IH _ _ _ _ _ _ _ _ Hwf1 Hleft) as (Hwf2 & Hh2 & Hlen2 & Ha2).
  destruct (IH _ _ _ _ _ _ _ _ Hwf2 Hright) as (Hwf3 & Hh3 & Hlen3 & Ha3).
  destruct (rollback_to_wf fuel (RollbackDSU.get_checkpoint d) d3 Hwf3)
    as (d5 & Hd5 & Hwf5 & _ & Hh5 & Hlen5).
  rewrite Hd5 in Hback. injection Hback as <-.
  split; [done|]. split; [|split; congruence].
  rewrite Hh5, Hh3, Hh2, Hext. apply take_app_length.
Qed.

Lemma mid_bounds (tl tr : Z) :
  (tl + 2 ≤ tr)%Z → (tl < (tl + tr) `div` 2 < tr)%Z.
Proof.
  intros H. pose proof (Z.div_mod (tl + tr) 2).
  pose proof (Z.mod_pos_bound (tl + tr) 2). lia.
Qed.

Lemma edges_ok_filter n edges (P : edge → Prop) `{!∀ e, Decision (P e)} :
  edges_ok n edges → edges_ok n (filter P edges).
Proof.
  intros Hok u v ts te Hin. apply list_elem_of_filter in Hin as [_ Hin]. eauto.
Qed.

(** With enough budget, a call of [_solve_recursive] on a well-formed state
    and in-range arguments returns. *)
Lemma solve_recursive_total depth fuel edges qis queries d ans tl tr :
  wf d → length (RollbackDSU.parent d) ≤ fuel →
  (tl < tr)%Z → Z.to_nat (tr - tl) ≤ depth →
  edges_ok (length (RollbackDSU.parent d)) edges →
  queries_ok (length (RollbackDSU.parent d)) queries (length ans) qis →
  ∃ st', solve_recursive depth fuel edges qis queries (d, ans) tl tr = Ok st'.
Proof.
  revert edges qis d ans tl tr.
  induction depth as [|depth IH];
    intros edges qis d ans tl tr Hwf Hfuel Htime Hdepth Hedges Hqueries;
    rewrite solve_recursive_unfold.
  all: destruct qis as [|q qis]; [by eauto|].
  all: destruct (Z.eqb_spec (tr - tl) 1) as [Hbase|Hbase].
  all: try (destruct (answer_leaf_total fuel (q :: qis) queries d tl ans Hwf Hfuel Hqueries)
              as [ans1 ->]; simpl; by eauto).
  { lia. }
  cbv zeta.
  pose proof (mid_bounds tl tr ltac:(lia)) as Hmid.
  set (tm := ((tl + tr) `div` 2)%Z) in *.
  destruct (add_spanning_total fuel edges tl tm d Hwf Hfuel Hedges) as [d1 Hd1].
  rewrite (bind_eq _ _ _ Hd1).
  destruct (add_spanning_Ok _ _ _ _ _ _ Hwf Hd1) as (Hwf1 & Hlen1 & _).
  destruct (split_queries_total (q :: qis) queries tm) as (l & r & Hsplit).
  { intros qi Hqi. destruct (Hqueries qi Hqi) as (u & v & t & qid & Hq & _). eauto. }
  rewrite (bind_eq _ _ _ Hsplit). cbv beta iota.
  pose proof (split_queries_Ok _ _ _ _ _ Hsplit) as Hlr.
  set (edges' := filter (λ e, spans tl tm e = false) edges).
  assert (edges_ok (length (RollbackDSU.parent d)) edges') as Hedges'
    by (by apply edges_ok_filter).
  destruct (IH edges' l d1 ans tl tm) as [[d2 ans2] Hleft]; try done; try lia.
  { by rewrite Hlen1. }
  { rewrite Hlen1. intros qi Hqi. apply Hqueries. by apply Hlr in Hqi as [? _]. }
  rewrite (bind_eq _ _ _ Hleft).
  destruct (solve_recursive_Ok _ _ _ _ _ _ _ _ _ _ _ Hwf1 Hleft) as (Hwf2 & _ & Hlen2 & Ha2).
  destruct (IH edges' r d2 ans2 tm tr) as [[d3 ans3] Hright]; try done; try lia.
  { by rewrite Hlen2, Hlen1. }
  { rewrite Hlen2, Hlen1, Ha2. intros qi Hqi. apply Hqueries. by apply Hlr in Hqi as [? _]. }
  rewrite (bind_eq _ _ _ Hright). cbv beta iota.
  destruct (solve_recursive_Ok _ _ _ _ _ _ _ _ _ _ _ Hwf2 Hright) as (Hwf3 & _).
  destruct (rollback_to_wf fuel (RollbackDSU.get_checkpoint d) d3 Hwf3) as (d4 & Hd4 & _).
  rewrite (bind_eq _ _ _ Hd4). eauto.
Qed.

End recursion.

(** ** Batches built through [add_edge] and [add_query] *)

Section batches.
Import OfflineDynamicConnectivity.

Lemma length_filter_is_query ops :
  length (filter (λ op, is_query op = true) ops) = length (queries_of ops).
Proof.
  induction ops as [|[u v ts te|u v t qid] ops IH]; [done| |].
  - rewrite filter_cons_False by done. exact IH.
  - rewrite filter_cons_True by done. simpl. by rewrite IH.
Qed.

Lemma batch_snoc n rs r : batch n (rs ++ [r]) = register (batch n rs) r.
Proof. unfold batch. by rewrite foldl_app. Qed.

Lemma batch_spec n rs :
  OfflineDynamicConnectivity.n (batch n rs) = n ∧
  edges_of (operations (batch n rs)) = reg_edges rs ∧
  queries_of (operations (batch n rs)) = imap with_id (reg_queries rs) ∧
  op3 <$> operations (batch n rs) = reg_times rs.
Proof.
  induction rs as [|r rs (IHn & IHe & IHq & IHt)] using rev_ind; [done|].
  rewrite batch_snoc. unfold reg_edges, reg_queries, reg_times in *.
  rewrite !omap_app, fmap_app.
  destruct r as [u v ts te|u v t]; simpl; unfold queries_of, edges_of in *;
    rewrite !omap_app, fmap_app; simpl.
  - rewrite IHe, IHq, IHt, !app_nil_r. done.
  - rewrite IHe, IHq, IHt, !app_nil_r. split; [done|]. split; [done|]. split; [|done].
    rewrite imap_app. simpl. rewrite Nat.add_0_r.
    rewrite length_filter_is_query. unfold queries_of. rewrite IHq, length_imap. done.
Qed.

Lemma valid_reg_edges n rs :
  Forall (valid_registration n) rs → edges_ok n (reg_edges rs).
Proof.
  intros Hv u v ts te Hin. apply list_elem_of_omap in Hin as (r & Hr & Heq).
  rewrite Forall_forall in Hv. specialize (Hv r Hr).
  destruct r; simplify_eq. simpl in Hv. tauto.
Qed.

Lemma valid_reg_queries n rs u v t :
  Forall (valid_registration n) rs → (u, v, t) ∈ reg_queries rs →
  u < n ∧ v < n ∧ (0 ≤ t)%Z.
Proof.
  intros Hv Hin. apply list_elem_of_omap in Hin as (r & Hr & Heq).
  rewrite Forall_forall in Hv. specialize (Hv r Hr).
  destruct r; simplify_eq. simpl in Hv. tauto.
Qed.

Lemma valid_reg_times n rs z :
  Forall (valid_registration n) rs → z ∈ reg_times rs → (0 ≤ z)%Z.
Proof.
  intros Hv Hin. apply list_elem_of_fmap in Hin as (r & -> & Hr).
  rewrite Forall_forall in Hv. specialize (Hv r Hr).
  destruct r; simpl in Hv; lia.
Qed.

(** The bound of a valid, non-empty batch is positive. *)
Lemma valid_time_bound n rs :
  rs ≠ [] → Forall (valid_registration n) rs →
  ∃ m, time_bound (operations (batch n rs)) = Ok (m + 1)%Z ∧ (0 ≤ m)%Z ∧
       ∀ z, z ∈ reg_times rs → (z ≤ m)%Z.
Proof.
  intros Hne Hv. destruct (batch_spec n rs) as (_ & _ & _ & Ht).
  unfold time_bound. rewrite Ht.
  destruct (py_max_spec (reg_times rs)) as (m & -> & Hin & Hle).
  { destruct rs; [done|]. discriminate. }
  exists m. split; [done|]. split; [by eapply valid_reg_times|done].
Qed.

Lemma queries_ok_batch n rs :
  Forall (valid_registration n) rs →
  queries_ok n (imap with_id (reg_queries rs)) (length (imap with_id (reg_queries rs)))
             (seq 0 (length (imap with_id (reg_queries rs)))).
Proof.
  intros Hv qi Hqi. apply elem_of_seq in Hqi as [_ Hqi]. simpl in Hqi.
  rewrite length_imap in Hqi.
  destruct (lookup_lt_is_Some_2 _ _ Hqi) as [[[u v] t] Hq].
  exists u, v, t, qi. rewrite list_lookup_imap, Hq. split; [done|].
  destruct (valid_reg_queries n rs u v t Hv) as (? & ? & _).
  { apply list_elem_of_lookup. eauto. }
  rewrite length_imap. done.
Qed.

(** C8: every returning call of [union], merging or not, appends exactly
    one entry to the history; when [solve] returns, the history of its
    disjoint-set is empty and the parent array is back at [list(range(n))];
    and on every non-empty batch that meets the input contract [solve] does
    return, given enough budget. *)
Theorem C8_history_balanced :
  (∀ fuel d x y d' b,
     RollbackDSU.union fuel d x y = Ok (d', b) →
     ∃ e, RollbackDSU.history d' = RollbackDSU.history d ++ [e]) ∧
  (∀ depth fuel self d ans,
     solve_state depth fuel self = Ok (d, ans) →
     RollbackDSU.history d = [] ∧ length (RollbackDSU.history d) = 0 ∧
     RollbackDSU.parent d = seq 0 (n self)) ∧
  (∀ n rs,
     rs ≠ [] → Forall (valid_registration n) rs →
     ∃ depth0, ∀ depth fuel, depth0 ≤ depth → n ≤ fuel →
       ∃ d ans, solve_state depth fuel (batch n rs) = Ok (d, ans)).
Proof.
  split; [|split].
  - intros fuel d x y d' b H. by destruct (union_history _ _ _ _ _ _ H) as [_ ?].
  - intros depth fuel self d ans H. unfold solve_state in H.
    apply bind_Ok in H as (T & _ & H).
    destruct (solve_recursive_Ok _ _ _ _ _ _ _ _ _ _ _ (wf_init _) H)
      as (Hwf & Hh & Hlen & _).
    simpl in Hh, Hlen. rewrite length_seq in Hlen.
    split; [done|]. split; [by rewrite Hh|].
    pose proof (wf_undo d Hwf) as Hu. rewrite Hh, undo_all_nil, Hlen in Hu. done.
  - intros n rs Hne Hv.
    destruct (valid_time_bound n rs Hne Hv) as (m & Hm & Hpos & _).
    exists (Z.to_nat (m + 1)). intros depth fuel Hdepth Hfuel.
    unfold solve_state. rewrite Hm. simpl.
    destruct (batch_spec n rs) as (-> & -> & -> & _).
    destruct (solve_recursive_total depth fuel (reg_edges rs)
                (seq 0 (length (imap with_id (reg_queries rs))))
                (imap with_id (reg_queries rs)) (RollbackDSU.init n)
                (replicate (length (imap with_id (reg_queries rs))) false)
                0 (m + 1)) as [[d ans] H].
    + apply wf_init.
    + simpl. by rewrite length_seq.
    + lia.
    + lia.
    + simpl. rewrite length_seq. by apply valid_reg_edges.
    + simpl. rewrite length_seq, length_replicate. by apply queries_ok_batch.
    + eauto.
Qed.

End batches.

(** ** Batches without edges *)

Section no_edges.
Import OfflineDynamicConnectivity.
Implicit Types (queries : list (nat * nat * Z * nat)) (ans : list bool).

Lemma connected_init fuel n u v :
  u < n → v < n → RollbackDSU.connected (S fuel) (RollbackDSU.init n) u v = Ok (u =? v).
Proof.
  intros Hu Hv. unfold RollbackDSU.connected, RollbackDSU.find. simpl.
  unfold getitem. rewrite !lookup_seq_lt by done. simpl.
  by rewrite !Nat.eqb_refl.
Qed.

Lemma answer_leaf_init fuel n queries tl qis ans :
  ready n queries tl (tl + 1) (length ans) qis →
  ∃ ans', answer_leaf (S fuel) qis queries (RollbackDSU.init n) tl ans = Ok ans' ∧
          length ans' = length ans ∧
          ∀ i, ans' !! i = if decide (i ∈ qis) then trivial_answer queries i else ans !! i.
Proof.
  revert ans. induction qis as [|q qis IH]; intros ans Hr.
  - exists ans. split; [done|]. split; [done|]. intros i.
    case_decide as Hi; [by apply elem_of_nil in Hi|done].
  - destruct (Hr q) as (u & v & t & Hq & Hu & Hv & Ht & Hlen); [by left|].
    destruct (IH (<[q:=u =? v]> ans)) as (ans' & Hans' & Hlen' & Hspec).
    { intros qi Hqi. rewrite length_insert. apply Hr. by right. }
    exists ans'. split; [|split].
    + simpl. apply getitem_Ok in Hq. rewrite Hq. simpl.
      replace (t =? tl)%Z with true by (symmetry; apply Z.eqb_eq; lia).
      rewrite connected_init by done. simpl.
      rewrite setitem_lt by done. exact Hans'.
    + by rewrite Hlen', length_insert.
    + intros i. rewrite Hspec.
      destruct (decide (i ∈ qis)) as [Hi|Hi].
      * rewrite decide_True; [done|by right].
      * destruct (decide (i = q)) as [->|Hne].
        -- rewrite decide_True by (by left).
           rewrite list_lookup_insert_eq by done.
           unfold trivial_answer. by rewrite Hq.
        -- rewrite decide_False.
           ++ by rewrite list_lookup_insert_ne.
           ++ intros [?|?]%elem_of_cons; done.
Qed.

(** Without edges the recursion never touches the disjoint-set and gives
    every query of the segment the answer [u == v]. *)
Lemma solve_recursive_no_edges depth fuel n queries qis ans tl tr :
  (tl < tr)%Z → Z.to_nat (tr - tl) ≤ depth →
  ready n queries tl tr (length ans) qis →
  ∃ ans', solve_recursive depth (S fuel) [] qis queries (RollbackDSU.init n, ans) tl tr
            = Ok (RollbackDSU.init n, ans') ∧
          length ans' = length ans ∧
          ∀ i, ans' !! i = if decide (i ∈ qis) then trivial_answer queries i else ans !! i.
Proof.
  revert qis ans tl tr.
  induction depth as [|depth IH]; intros qis ans tl tr Htime Hdepth Hr;
    rewrite solve_recursive_unfold.
  all: destruct qis as [|q qis];
    [exists ans; split; [done|]; split; [done|]; intros i;
     case_decide as Hi; [by apply elem_of_nil in Hi|done] |].
  all: destruct (Z.eqb_spec (tr - tl) 1) as [Hbase|Hbase].
  all: try (replace tr with (tl + 1)%Z in Hr by lia;
            destruct (answer_leaf_init fuel n queries tl (q :: qis) ans Hr)
              as (ans' & Hans' & Hlen' & Hspec);
            exists ans'; rewrite (bind_eq _ _ _ Hans'); done).
  { lia. }
  cbv zeta.
  pose proof (mid_bounds tl tr ltac:(lia)) as Hmid.
  set (tm := ((tl + tr) `div` 2)%Z) in *.
  change (add_spanning (S fuel) [] tl tm (RollbackDSU.init n))
    with (Ok (A:=RollbackDSU.t) (RollbackDSU.init n)).
  rewrite (bind_eq _ _ (RollbackDSU.init n) eq_refl).
  destruct (split_queries_total (q :: qis) queries tm) as (l & r & Hsplit).
  { intros qi Hqi. destruct (Hr qi Hqi) as (u & v & t & Hq & _). eauto. }
  rewrite (bind_eq _ _ _ Hsplit). cbv beta iota.
  pose proof (split_queries_Ok _ _ _ _ _ Hsplit) as Hlr.
  change (filter (λ e, spans tl tm e = false) []) with (@nil (nat * nat * Z * Z)).
  destruct (IH l ans tl tm) as (ans1 & Hleft & Hlen1 & Hspec1); [lia|lia| |].
  { intros qi Hqi. apply Hlr in Hqi as [Hqi (u' & v' & t' & qid' & Hq' & Ht')].
    destruct (Hr qi Hqi) as (u & v & t & Hq & Hu & Hv & Ht & Hlen).
    exists u, v, t. rewrite Hq in Hq'. simplify_eq. repeat split; try done; lia. }
  rewrite (bind_eq _ _ _ Hleft).
  destruct (IH r ans1 tm tr) as (ans2 & Hright & Hlen2 & Hspec2); [lia|lia| |].
  { intros qi Hqi. apply Hlr in Hqi as [Hqi (u' & v' & t' & qid' & Hq' & Ht')].
    destruct (Hr qi Hqi) as (u & v & t & Hq & Hu & Hv & Ht & Hlen).
    exists u, v, t. rewrite Hq in Hq'. simplify_eq. rewrite Hlen1.
    repeat split; try done; lia. }
  rewrite (bind_eq _ _ _ Hright). cbv beta iota.
  exists ans2. split; [done|]. split; [congruence|].
  intros i. rewrite Hspec2, Hspec1.
  destruct (decide (i ∈ r)) as [Hir|Hir].
  { apply Hlr in Hir as [Hi _]. by rewrite decide_True. }
  destruct (decide (i ∈ l)) as [Hil|Hil].
  { apply Hlr in Hil as [Hi _]. by rewrite decide_True. }
  rewrite decide_False; [done|]. intros Hi.
  destruct (Hr i Hi) as (u & v & t & Hq & _).
  destruct (Z.lt_ge_cases t tm).
  - apply Hil, Hlr. eauto 10.
  - apply Hir, Hlr. eauto 10.
Qed.

Lemma reg_of_queries (qs : list (nat * nat * Z)) :
  let rs := (λ q : nat * nat * Z, let '(u, v, t) := q in AddQuery u v t) <$> qs in
  reg_edges rs = [] ∧ reg_queries rs = qs.
Proof.
  cbv zeta. unfold reg_edges, reg_queries.
  induction qs as [|[[u v] t] qs [IHe IHq]]; [done|].
  split; simpl in *; [exact IHe|by f_equal].
Qed.

(** C9 (as the code has it): on a batch without edges and with at least one
    query, all queries between existing nodes at times [>= 0], [solve]
    returns, and its answer to a query [(u, v, t)] is [True] when [u == v]
    and [False] otherwise. *)
Theorem C9_no_edges n (qs : list (nat * nat * Z)) :
  qs ≠ [] →
  Forall (λ q, let '(u, v, t) := q in u < n ∧ v < n ∧ (0 ≤ t)%Z) qs →
  ∃ depth0, ∀ depth fuel, depth0 ≤ depth →
    ∃ self', solve depth (S fuel) (query_batch n qs)
             = Ok (self', (λ q : nat * nat * Z, let '(u, v, _) := q in u =? v) <$> qs).
Proof.
  intros Hne Hv. unfold query_batch.
  set (rs := (λ q : nat * nat * Z, let '(u, v, t) := q in AddQuery u v t) <$> qs).
  destruct (reg_of_queries qs) as [He Hq]. fold rs in He, Hq.
  assert (Forall (valid_registration n) rs) as Hvr.
  { apply Forall_fmap. eapply Forall_impl; [exact Hv|]. by intros [[u v] t]. }
  destruct (valid_time_bound n rs) as (m & Hm & Hpos & Hle); [by destruct qs|done|].
  exists (Z.to_nat (m + 1)). intros depth fuel Hdepth.
  unfold solve, solve_state. rewrite Hm. simpl.
  destruct (batch_spec n rs) as (-> & -> & -> & _). rewrite He, Hq.
  destruct (solve_recursive_no_edges depth fuel n (imap with_id qs)
              (seq 0 (length (imap with_id qs)))
              (replicate (length (imap with_id qs)) false) 0 (m + 1))
    as (ans & Hans & Hlen & Hspec); [lia|lia| |].
  { intros qi Hqi. apply elem_of_seq in Hqi as [_ Hqi]. simpl in Hqi.
    rewrite length_imap in Hqi.
    destruct (lookup_lt_is_Some_2 _ _ Hqi) as [[[u v] t] Hlook].
    exists u, v, t. rewrite list_lookup_imap, Hlook. split; [done|].
    rewrite Forall_forall in Hv.
    destruct (Hv (u, v, t)) as (? & ? & ?); [apply list_elem_of_lookup; eauto|].
    rewrite length_replicate, length_imap. repeat split; try done.
    assert (t ≤ m)%Z; [|lia]. apply Hle. unfold rs, reg_times.
    rewrite <- list_fmap_compose. apply list_elem_of_fmap.
    exists (u, v, t). split; [done|]. apply list_elem_of_lookup. eauto. }
  rewrite Hans. simpl. eexists. f_equal. f_equal.
  apply list_eq. intros i. rewrite Hspec, list_lookup_fmap.
  rewrite length_replicate, length_imap in Hlen.
  destruct (decide (i < length qs)) as [Hi|Hi].
  - rewrite decide_True by (apply elem_of_seq; rewrite length_imap; lia).
    unfold trivial_answer. rewrite list_lookup_imap.
    destruct (qs !! i) as [[[u v] t]|]; done.
  - rewrite decide_False by (rewrite elem_of_seq, length_imap; lia).
    rewrite lookup_ge_None_2 by (rewrite length_replicate, length_imap; lia).
    by rewrite lookup_ge_None_2 by lia.
Qed.

Lemma C9_witness :
  ∃ depth0, ∀ depth fuel, depth0 ≤ depth →
    ∃ self', solve depth (S fuel) (query_batch 3 [(0, 1, 2%Z); (2, 2, 0%Z)])
             = Ok (self', [false; true]).
Proof.
  apply (C9_no_edges 3 [(0, 1, 2%Z); (2, 2, 0%Z)]); [discriminate|].
  repeat constructor; lia.
Defined.

(** C9, the claim as stated fails: with no edge at all, the query
    [(0, 0, 0)] is answered [True]. *)
Lemma C9_counterexample :
  edges_of (operations (add_query (init 1) 0 0 0)) = [] ∧
  ∃ self', solve 1 1 (add_query (init 1) 0 0 0) = Ok (self', [true]).
Proof. split; [reflexivity|]. eexists. reflexivity. Qed.

End no_edges.

(** ** Further properties of [RollbackDSU] *)

Section round_trip.
Import RollbackDSU.
Implicit Types (d : t) (cs : list call).

Lemma run_app fuel d cs cs' :
  run fuel d (cs ++ cs') = run fuel d cs ≫= λ d', run fuel d' cs'.
Proof.
  revert d. induction cs as [|c cs IH]; intros d; simpl; [done|].
  destruct (step fuel d c); simpl; auto.
Qed.

Lemma step_length fuel d c d' :
  wf d → step fuel d c = Ok d' → length (parent d') = length (parent d).
Proof.
  intros Hwf H. destruct c as [x y| |c|x|x y]; simpl in H.
  - apply bind_Ok in H as ([d1 b] & Hu & H). injection H as <-.
    by destruct (union_history _ _ _ _ _ _ Hu).
  - by eapply rollback_length.
  - destruct (rollback_to_wf fuel c d Hwf) as (d1 & Hd1 & _ & _ & _ & Hlen). congruence.
  - apply bind_Ok in H as (? & _ & H). by injection H as <-.
  - apply bind_Ok in H as (? & _ & H). by injection H as <-.
Qed.

Lemma run_length fuel cs d d' :
  wf d → run fuel d cs = Ok d' → length (parent d') = length (parent d).
Proof.
  revert d. induction cs as [|c cs IH]; intros d Hwf H; simpl in H.
  - by injection H as <-.
  - apply bind_Ok in H as (d1 & Hd1 & H).
    rewrite (IH d1 (wf_step _ _ _ _ Hwf Hd1) H). by eapply step_length.
Qed.

(** [rollback] acts on [parent] and [history] as a function of these two. *)
Lemma rollback_parent_history fuel d1 d2 :
  wf d1 → wf d2 → parent d1 = parent d2 → history d1 = history d2 →
  ∃ e1 e2, rollback fuel d1 = Ok e1 ∧ rollback fuel d2 = Ok e2 ∧
           parent e1 = parent e2 ∧ history e1 = history e2.
Proof.
  intros Hwf1 Hwf2 Hp Hh. eexists _, _.
  split; [by apply rollback_wf|]. split; [by apply rollback_wf|].
  rewrite Hh. destruct (pop (history d2)) as [[h [[[??]?]|]]|]; simpl; by rewrite ?Hp.
Qed.

(** In every state reached from a fresh structure of [n] elements the
    parent array is a forest over the same [n] elements, and [find] returns
    a root for every element once its loop may run [n] times. *)
Theorem reachable_forest fuel n cs d :
  run fuel (init n) cs = Ok d →
  forest (parent d) ∧ length (parent d) = n ∧ length (size d) = n ∧
  ∀ x fuel', x < n → n ≤ fuel' →
    ∃ r, find fuel' d x = Ok r ∧ parent d !! r = Some r.
Proof.
  intros Hrun. pose proof (wf_run _ _ _ _ (wf_init n) Hrun) as Hwf.
  pose proof (run_length _ _ _ _ (wf_init n) Hrun) as Hlen.
  simpl in Hlen. rewrite length_seq in Hlen.
  split; [by apply wf_forest|]. split; [done|].
  split; [by rewrite (wf_size d Hwf)|].
  intros x fuel' Hx Hfuel.
  destruct (forest_find (parent d) x fuel') as (l & r & Hp & Hr);
    [by apply wf_forest|lia|lia|].
  exists r. split; [done|]. by eapply path_end_root.
Qed.

Lemma reachable_forest_witness :
  let d := mk [0; 0; 0] [3; 1; 1]%Z [Some (1, 1, 1%Z); Some (2, 2, 2%Z)] in
  forest (parent d) ∧ length (parent d) = 3 ∧ length (size d) = 3 ∧
  ∀ x fuel', x < 3 → 3 ≤ fuel' →
    ∃ r, find fuel' d x = Ok r ∧ parent d !! r = Some r.
Proof.
  apply (reachable_forest 3 3 [Union 0 1; Union 1 2]). reflexivity.
Defined.

(** Any number of [union] calls followed by as many [rollback] calls gives
    back the parent array and the history of the state they started from. *)
Theorem unions_rollbacks_restore_parent fuel0 fuel n cs d (xs : list (nat * nat)) d1 :
  run fuel0 (init n) cs = Ok d →
  run fuel d ((λ xy, Union xy.1 xy.2) <$> xs) = Ok d1 →
  ∃ d2, run fuel d1 (replicate (length xs) Rollback) = Ok d2 ∧
        parent d2 = parent d ∧ history d2 = history d.
Proof.
  intros Hrun. pose proof (wf_run _ _ _ _ (wf_init n) Hrun) as Hwf.
  clear Hrun. revert d d1 Hwf.
  induction xs as [|[x y] xs IH]; intros d d1 Hwf H.
  - injection H as <-. by exists d.
  - simpl in H. apply bind_Ok in H as (d' & Hstep & H).
    apply bind_Ok in Hstep as ([d'' b] & Hu & Hstep). injection Hstep as ->.
    pose proof (wf_union _ _ _ _ _ _ Hwf Hu) as Hwf'.
    destruct (IH d' d1 Hwf' H) as (d2 & Hd2 & Hp2 & Hh2).
    assert (wf d2) as Hwf2.
    { eapply wf_run; [|exact Hd2]. by eapply wf_run. }
    destruct (union_rollback _ _ _ _ _ _ Hwf Hu) as (e' & He' & Hpe & Hhe).
    destruct (rollback_parent_history fuel d2 d' Hwf2 Hwf' Hp2 Hh2)
      as (e1 & e2 & He1 & He2 & Hp & Hh).
    exists e1. split; [|split; congruence].
    change (length ((x, y) :: xs)) with (S (length xs)).
    rewrite replicate_S_end, run_app, Hd2. simpl. by rewrite He1.
Qed.

Lemma unions_rollbacks_restore_parent_witness :
  ∃ d2, run 3 (mk [0; 0; 0] [3; 1; 1]%Z [Some (1, 1, 1%Z); Some (2, 2, 2%Z)])
            (replicate 2 Rollback) = Ok d2 ∧
        parent d2 = parent (init 3) ∧ history d2 = history (init 3).
Proof.
  apply (unions_rollbacks_restore_parent 3 3 3 [] (init 3) [(0, 1); (1, 2)]);
    reflexivity.
Defined.

End round_trip.


(** ** The contract of [find], [union] and [connected] *)

Section dsu_contract.
Import RollbackDSU.
Implicit Types (d : t) (x y z : nat).

(** The value [find] returns is a root, and [find] of a root is that root. *)
Theorem find_returns_root fuel d x r :
  find fuel d x = Ok r →
  parent d !! r = Some r ∧ find fuel d r = Ok r.
Proof.
  intros H. apply find_loop_path in H as (l & Hp & Hl).
  apply path_end_root in Hp. split; [done|].
  apply path_find_loop with (l := []); [by constructor|simpl; lia].
Qed.

Lemma find_returns_root_witness :
  parent (mk [0; 0; 1] [3; 1; 1]%Z []) !! 0 = Some 0 ∧
  find 3 (mk [0; 0; 1] [3; 1; 1]%Z []) 0 = Ok 0.
Proof.
  apply (find_returns_root 3 (mk [0; 0; 1] [3; 1; 1]%Z []) 2 0). reflexivity.
Defined.

Lemma find_out_of_range fuel d x :
  length (parent d) ≤ x → find (S fuel) d x = IndexError.
Proof.
  intros Hx. unfold find. simpl. unfold getitem.
  by rewrite lookup_ge_None_2.
Qed.

(** In a state reached from a structure of [n] elements, [find], [union]
    and [connected] raise [IndexError] as soon as one argument is [>= n]. *)
Theorem out_of_range_raises fuel0 n cs d fuel x y :
  run fuel0 (init n) cs = Ok d →
  n ≤ S fuel →
  n ≤ x ∨ n ≤ y →
  (n ≤ x → find (S fuel) d x = IndexError) ∧
  union (S fuel) d x y = IndexError ∧
  connected (S fuel) d x y = IndexError.
Proof.
  intros Hrun Hfuel Hxy.
  pose proof (wf_run _ _ _ _ (wf_init n) Hrun) as Hwf.
  pose proof (run_length _ _ _ _ (wf_init n) Hrun) as Hlen.
  simpl in Hlen. rewrite length_seq in Hlen.
  split; [intros Hx; apply find_out_of_range; lia|].
  unfold union, connected.
  destruct (decide (n ≤ x)) as [Hx|Hx].
  - rewrite (find_out_of_range fuel d x) by lia. done.
  - destruct Hxy as [?|Hy]; [done|].
    destruct (forest_find (parent d) x (S fuel)) as (l & r & _ & Hr);
      [by apply wf_forest|lia|lia|].
    change (find (S fuel) d x) with (find_loop (S fuel) (parent d) x).
    rewrite Hr. simpl.
    rewrite (find_out_of_range fuel d y) by lia. done.
Qed.

Lemma out_of_range_raises_witness :
  (3 ≤ 5 → find 3 (init 3) 5 = IndexError) ∧
  union 3 (init 3) 5 1 = IndexError ∧
  connected 3 (init 3) 5 1 = IndexError.
Proof.
  apply (out_of_range_raises 3 3 [] (init 3) 2 5 1); [reflexivity|lia|lia].
Defined.

(** [connected] is an equivalence on the elements for which [find]
    returns: reflexive, symmetric and transitive. *)
Theorem connected_equivalence fuel d :
  (∀ x r, find fuel d x = Ok r → connected fuel d x x = Ok true) ∧
  (∀ x y b, connected fuel d x y = Ok b → connected fuel d y x = Ok b) ∧
  (∀ x y z, connected fuel d x y = Ok true → connected fuel d y z = Ok true →
            connected fuel d x z = Ok true).
Proof.
  unfold connected. split; [|split].
  - intros x r ->. simpl. by rewrite Nat.eqb_refl.
  - intros x y b H. apply bind_Ok in H as (rx & -> & H).
    apply bind_Ok in H as (ry & -> & H). simpl.
    injection H as <-. by rewrite Nat.eqb_sym.
  - intros x y z H1 H2.
    apply bind_Ok in H1 as (rx & Hx & H1). apply bind_Ok in H1 as (ry & Hy & H1).
    apply bind_Ok in H2 as (ry' & Hy' & H2). apply bind_Ok in H2 as (rz & Hz & H2).
    rewrite Hx, Hz. simpl. f_equal.
    injection H1 as H1. injection H2 as H2.
    apply Nat.eqb_eq in H1, H2. apply Nat.eqb_eq. congruence.
Qed.

(** [union(x, y)] returns [True] exactly when [x] and [y] were not connected
    before the call; a call that returns [False] changes neither [parent]
    nor [size] and logs the no-op entry [None]. *)
Theorem union_result fuel d x y d' b :
  union fuel d x y = Ok (d', b) →
  connected fuel d x y = Ok (negb b) ∧
  (b = false →
   parent d' = parent d ∧ size d' = size d ∧ history d' = history d ++ [None]).
Proof.
  intros H. apply union_Ok in H as (rx & ry & Hrx & Hry & H).
  unfold connected. rewrite Hrx, Hry. simpl.
  destruct H as [(-> & -> & ->)|(Hne & -> & _)].
  - rewrite Nat.eqb_refl. done.
  - apply Nat.eqb_neq in Hne. rewrite Hne. done.
Qed.

Lemma union_result_witness :
  connected 3 (mk [0; 0; 2] [2; 1; 1]%Z [Some (1, 1, 1%Z)]) 1 0 = Ok (negb false) ∧
  (false = false →
   parent (mk [0; 0; 2] [2; 1; 1]%Z [Some (1, 1, 1%Z); None]) = [0; 0; 2] ∧
   size (mk [0; 0; 2] [2; 1; 1]%Z [Some (1, 1, 1%Z); None]) = [2; 1; 1]%Z ∧
   history (mk [0; 0; 2] [2; 1; 1]%Z [Some (1, 1, 1%Z); None])
   = [Some (1, 1, 1%Z)] ++ [None]).
Proof.
  apply (union_result 3 (mk [0; 0; 2] [2; 1; 1]%Z [Some (1, 1, 1%Z)]) 1 0).
  reflexivity.
Defined.

Lemma find_after_link fuel p z l r a c :
  path p z l r → p !! a = Some a → p !! c = Some c → a ≠ c →
  length p ≤ fuel →
  find_loop fuel (<[c:=a]> p) z = Ok (if decide (r = c) then a else r).
Proof.
  intros Hp Ha Hc Hac Hfuel.
  pose proof (path_link _ _ _ _ a c Hp Ha Hc Hac) as Hp'.
  eapply path_find_loop; [exact Hp'|].
  apply path_length in Hp'. rewrite length_insert in Hp'. lia.
Qed.

Ltac eqb_cases :=
  repeat case_decide;
  repeat match goal with
         | |- context [?u =? ?v] => destruct (Nat.eqb_spec u v)
         end;
  simpl; try done; try lia.

(** After [union(x, y)], two elements are connected exactly when they were
    connected before, or one was connected to [x] and the other to [y]. *)
Theorem union_connects fuel0 n cs d fuel x y d' b a c :
  run fuel0 (init n) cs = Ok d →
  n ≤ fuel →
  union fuel d x y = Ok (d', b) →
  a < n → c < n →
  ∃ ac ax ay cx cy,
    connected fuel d a c = Ok ac ∧
    connected fuel d a x = Ok ax ∧ connected fuel d a y = Ok ay ∧
    connected fuel d c x = Ok cx ∧ connected fuel d c y = Ok cy ∧
    connected fuel d' a c = Ok (ac || (ax && cy) || (ay && cx)).
Proof.
  intros Hrun Hfuel Hu Ha Hc.
  pose proof (wf_run _ _ _ _ (wf_init n) Hrun) as Hwf.
  pose proof (run_length _ _ _ _ (wf_init n) Hrun) as Hlen.
  simpl in Hlen. rewrite length_seq in Hlen.
  destruct (forest_find (parent d) a fuel) as (la & ra & Hpa & Hra);
    [by apply wf_forest|lia|lia|].
  destruct (forest_find (parent d) c fuel) as (lc & rc & Hpc & Hrc);
    [by apply wf_forest|lia|lia|].
  apply union_Ok in Hu as (rx & ry & Hrx & Hry & Hu).
  unfold connected, find in *. rewrite Hra, Hrc, Hrx, Hry. simpl.
  eexists _, _, _, _, _. do 5 (split; [reflexivity|]).
  destruct Hu as [(-> & -> & ->)|(Hne & -> & aa & cc & sa & sc & Hac & _ & _ & ->)]; simpl.
  - rewrite Hra, Hrc. simpl. f_equal. eqb_cases.
  - apply find_loop_path in Hrx as (lx & Hpx & _).
    apply find_loop_path in Hry as (ly & Hpy & _).
    apply path_end_root in Hpx, Hpy.
    assert (parent d !! aa = Some aa ∧ parent d !! cc = Some cc ∧ aa ≠ cc)
      as (Haa & Hcc & Hne').
    { destruct Hac as [[-> ->]|[-> ->]]; eauto. }
    rewrite (find_after_link fuel _ a la ra aa cc) by (done || lia).
    rewrite (find_after_link fuel _ c lc rc aa cc) by (done || lia).
    simpl. f_equal. destruct Hac as [[-> ->]|[-> ->]]; eqb_cases.
Qed.

Lemma union_connects_witness :
  ∃ ac ax ay cx cy,
    connected 4 (mk [0; 0; 2; 2] [2; 1; 2; 1]%Z [Some (1, 1, 1%Z); Some (3, 3, 1%Z)]) 0 3 = Ok ac ∧
    connected 4 (mk [0; 0; 2; 2] [2; 1; 2; 1]%Z [Some (1, 1, 1%Z); Some (3, 3, 1%Z)]) 0 1 = Ok ax ∧
    connected 4 (mk [0; 0; 2; 2] [2; 1; 2; 1]%Z [Some (1, 1, 1%Z); Some (3, 3, 1%Z)]) 0 2 = Ok ay ∧
    connected 4 (mk [0; 0; 2; 2] [2; 1; 2; 1]%Z [Some (1, 1, 1%Z); Some (3, 3, 1%Z)]) 3 1 = Ok cx ∧
    connected 4 (mk [0; 0; 2; 2] [2; 1; 2; 1]%Z [Some (1, 1, 1%Z); Some (3, 3, 1%Z)]) 3 2 = Ok cy ∧
    connected 4 (mk [0; 0; 0; 2] [4; 1; 2; 1]%Z
                    [Some (1, 1, 1%Z); Some (3, 3, 1%Z); Some (2, 2, 2%Z)]) 0 3
    = Ok (ac || (ax && cy) || (ay && cx)).
Proof.
  apply (union_connects 4 4 [Union 0 1; Union 2 3] _ 4 1 2 _ true 0 3);
    (reflexivity || lia).
Defined.

End dsu_contract.


(** ** Sizes, as long as nothing is rolled back *)

Section sizes.
Import RollbackDSU.
Implicit Types (d : t) (x y z r : nat).

Lemma length_filter_ext {A} (P Q : A → Prop)
    `{!∀ a, Decision (P a)} `{!∀ a, Decision (Q a)} (l : list A) :
  (∀ a, a ∈ l → P a ↔ Q a) → length (filter P l) = length (filter Q l).
Proof.
  induction l as [|a l IH]; intros Hext; [done|].
  rewrite !filter_cons.
  assert (P a ↔ Q a) as Ha by (apply Hext; by left).
  assert (length (filter P l) = length (filter Q l)) as Hl
    by (apply IH; intros; apply Hext; by right).
  repeat case_decide; simpl; tauto || lia.
Qed.

Lemma length_filter_split {A} (P Q R : A → Prop)
    `{!∀ a, Decision (P a)} `{!∀ a, Decision (Q a)} `{!∀ a, Decision (R a)}
    (l : list A) :
  (∀ a, a ∈ l → R a ↔ P a ∨ Q a) → (∀ a, a ∈ l → ¬ (P a ∧ Q a)) →
  length (filter R l) = length (filter P l) + length (filter Q l).
Proof.
  induction l as [|a l IH]; intros Hext Hd; [done|].
  rewrite !filter_cons.
  assert (R a ↔ P a ∨ Q a) as Ha by (apply Hext; by left).
  assert (¬ (P a ∧ Q a)) as Hda by (apply Hd; by left).
  assert (length (filter R l) = length (filter P l) + length (filter Q l)) as Hl.
  { apply IH; intros; [apply Hext|apply Hd]; by right. }
  repeat case_decide; simpl; tauto || lia.
Qed.

Lemma length_filter_eq_seq s n r :
  length (filter (λ x, x = r) (seq s n)) = if decide (s ≤ r < s + n) then 1 else 0.
Proof.
  revert s. induction n as [|n IH]; intros s; simpl.
  - case_decide; [lia|done].
  - rewrite filter_cons. destruct (decide (s = r)) as [->|Hne]; simpl; rewrite IH;
      repeat case_decide; lia.
Qed.

Lemma find_init fuel n x : x < n → find (S fuel) (init n) x = Ok x.
Proof.
  intros Hx. unfold find. simpl. unfold getitem.
  rewrite lookup_seq_lt by done. simpl. by rewrite Nat.eqb_refl.
Qed.

Lemma sized_init n : sized (init n).
Proof.
  intros fuel r Hfuel Hr. simpl in *. rewrite length_seq in Hfuel.
  apply lookup_seq in Hr as [_ Hr].
  rewrite lookup_replicate_2 by done. f_equal.
  unfold component_count. simpl. rewrite length_seq.
  rewrite (length_filter_ext _ (λ x, x = r)).
  - rewrite length_filter_eq_seq. case_decide; [done|lia].
  - intros x Hx. apply elem_of_seq in Hx as [_ Hx]. simpl in Hx.
    destruct fuel as [|fuel]; [lia|]. rewrite find_init by done.
    split; congruence.
Qed.

Lemma component_count_parent fuel d d' r :
  parent d' = parent d → component_count fuel d' r = component_count fuel d r.
Proof. unfold component_count, find. by intros ->. Qed.

Lemma sized_union fuel0 d x y d' b :
  wf d → sized d → union fuel0 d x y = Ok (d', b) → sized d'.
Proof.
  intros Hwf Hs Hu. apply union_Ok in Hu as (rx & ry & Hrx & Hry & Hu).
  destruct Hu as [(_ & _ & ->)|(Hne & _ & a & c & sa & sc & Hac & Hsa & Hsc & ->)].
  { intros fuel r Hfuel Hr.
    rewrite (component_count_parent fuel d (set_history d (history d ++ [None])) r eq_refl).
    exact (Hs fuel r Hfuel Hr). }
  apply find_loop_path in Hrx as (lx & Hpx & _).
  apply find_loop_path in Hry as (ly & Hpy & _).
  apply path_end_root in Hpx, Hpy.
  assert (parent d !! a = Some a ∧ parent d !! c = Some c ∧ a ≠ c) as (Ha & Hc & Hne').
  { destruct Hac as [[-> ->]|[-> ->]]; eauto. }
  intros fuel r Hfuel Hr. simpl in *. rewrite length_insert in Hfuel.
  assert (∀ z, z ∈ seq 0 (length (parent d)) →
            ∃ rz, find_loop fuel (parent d) z = Ok rz ∧
                  find_loop fuel (<[c:=a]> (parent d)) z
                  = Ok (if decide (rz = c) then a else rz)) as Hfind.
  { intros z Hz. apply elem_of_seq in Hz as [_ Hz]. simpl in Hz.
    destruct (forest_find (parent d) z fuel (wf_forest d Hwf) Hz Hfuel)
      as (l & rz & Hp & Hrz).
    exists rz. split; [done|]. by eapply find_after_link. }
  assert (r ≠ c) as Hrc.
  { intros ->. rewrite list_lookup_insert_eq in Hr by (by eapply lookup_lt_Some).
    congruence. }
  rewrite list_lookup_insert_ne in Hr by done.
  unfold component_count at 1. simpl. rewrite length_insert.
  destruct (decide (r = a)) as [->|Hra].
  - rewrite list_lookup_insert_eq by (by eapply lookup_lt_Some). f_equal.
    pose proof (Hs fuel a Hfuel Ha) as Hca. pose proof (Hs fuel c Hfuel Hc) as Hcc.
    rewrite Hsa in Hca. rewrite Hsc in Hcc. injection Hca as ->. injection Hcc as ->.
    rewrite <- Nat2Z.inj_add. f_equal. unfold component_count, find. simpl.
    symmetry. apply length_filter_split.
    + intros z Hz. destruct (Hfind z Hz) as (rz & -> & ->).
      case_decide; split; intros Heq; try destruct Heq as [Heq|Heq]; simplify_eq; auto.
    + intros z Hz. destruct (Hfind z Hz) as (rz & -> & _).
      intros [H1 H2]. congruence.
  - rewrite list_lookup_insert_ne by done. rewrite (Hs fuel r Hfuel Hr). do 2 f_equal.
    unfold component_count, find. simpl. apply length_filter_ext.
    intros z Hz. destruct (Hfind z Hz) as (rz & -> & ->).
    case_decide; split; intros Heq; simplify_eq; done.
Qed.

Lemma sized_step fuel d c d' :
  wf d → sized d → is_rollback c = false → step fuel d c = Ok d' → sized d'.
Proof.
  intros Hwf Hs Hc H. destruct c as [x y| |k|x|x y]; simpl in *; try done.
  - apply bind_Ok in H as ([d1 b] & Hu & H). injection H as <-.
    by eapply sized_union.
  - apply bind_Ok in H as (? & _ & H). by injection H as <-.
  - apply bind_Ok in H as (? & _ & H). by injection H as <-.
Qed.

Lemma sized_run fuel cs d d' :
  wf d → sized d → Forall (λ c, is_rollback c = false) cs →
  run fuel d cs = Ok d' → sized d'.
Proof.
  revert d. induction cs as [|c cs IH]; intros d Hwf Hs Hcs H; simpl in H.
  - by injection H as <-.
  - apply bind_Ok in H as (d1 & Hd1 & H).
    apply Forall_cons in Hcs as [Hc Hcs].
    eapply IH; [by eapply wf_step|by eapply sized_step|done|done].
Qed.

(** As long as neither [rollback] nor [rollback_to] has been called, the
    size stored at a root is the number of elements of its component. *)
Theorem size_is_component_count fuel0 n cs d fuel r :
  run fuel0 (init n) cs = Ok d →
  Forall (λ c, is_rollback c = false) cs →
  n ≤ fuel →
  parent d !! r = Some r →
  size d !! r = Some (Z.of_nat (component_count fuel d r)).
Proof.
  intros Hrun Hcs Hfuel Hr.
  pose proof (run_length _ _ _ _ (wf_init n) Hrun) as Hlen.
  simpl in Hlen. rewrite length_seq in Hlen.
  eapply (sized_run fuel0 cs (init n) d); try done.
  - apply wf_init.
  - apply sized_init.
  - lia.
Qed.

Lemma size_is_component_count_witness :
  size (mk [0; 0; 0; 3] [3; 1; 1; 1]%Z [Some (1, 1, 1%Z); Some (2, 2, 2%Z)]) !! 0
  = Some (Z.of_nat (component_count 4
       (mk [0; 0; 0; 3] [3; 1; 1; 1]%Z [Some (1, 1, 1%Z); Some (2, 2, 2%Z)]) 0)).
Proof.
  apply (size_is_component_count 4 4 [Union 0 1; Connected 0 1; Union 2 1]);
    [reflexivity|repeat constructor|lia|reflexivity].
Defined.

End sizes.


(** ** Checkpoints *)

Section checkpoints.
Import RollbackDSU.
Implicit Types (d : t) (cs : list call).

(** A returning [rollback] shortens the history by one entry, unless the
    history was empty. *)
Lemma rollback_history_length fuel d d' :
  rollback fuel d = Ok d' → length (history d') = pred (length (history d)).
Proof.
  unfold rollback. intros H.
  destruct (pop (history d)) as [[h e]|] eqn:Hpop.
  2:{ injection H as <-. apply pop_None in Hpop. by rewrite Hpop. }
  apply pop_Some in Hpop. rewrite Hpop, length_app. simpl.
  replace (pred (length h + 1)) with (length h) by lia.
  destruct e as [[[node op] os]|]; [|by injection H as <-].
  apply bind_Ok in H as (p & _ & H). apply bind_Ok in H as (root & _ & H).
  destruct (negb (root =? node)).
  - apply bind_Ok in H as (s1 & _ & H). apply bind_Ok in H as (sn & _ & H).
    apply bind_Ok in H as (s2 & _ & H). by injection H as <-.
  - by injection H as <-.
Qed.

Lemma rollback_to_loop_run iters fuel c d :
  length (history d) ≤ iters →
  rollback_to_loop iters fuel c d
  = run fuel d (replicate (length (history d) - c) Rollback).
Proof.
  revert d. induction iters as [|iters IH]; intros d Hlen; simpl.
  - case_decide; [lia|]. by replace (length (history d) - c) with 0 by lia.
  - case_decide as Hc.
    + replace (length (history d) - c) with (S (pred (length (history d)) - c)) by lia.
      simpl. destruct (rollback fuel d) as [d'| | |] eqn:Hd'; simpl; try done.
      pose proof (rollback_history_length _ _ _ Hd') as Hl.
      rewrite IH by lia. by rewrite Hl.
    + by replace (length (history d) - c) with 0 by lia.
Qed.


Lemma unions_history_length fuel d (xs : list (nat * nat)) d1 :
  run fuel d ((λ xy, Union xy.1 xy.2) <$> xs) = Ok d1 →
  length (history d1) = length (history d) + length xs.
Proof.
  revert d. induction xs as [|[x y] xs IH]; intros d H; simpl in H.
  - injection H as <-. simpl. lia.
  - apply bind_Ok in H as (d' & Hstep & H).
    apply bind_Ok in Hstep as ([d'' b] & Hu & Hstep). injection Hstep as ->.
    destruct (union_history _ _ _ _ _ _ Hu) as (_ & e & He).
    rewrite (IH _ H), He, length_app. simpl. lia.
Qed.

Lemma unions_rollbacks_wf fuel d (xs : list (nat * nat)) d1 :
  wf d →
  run fuel d ((λ xy, Union xy.1 xy.2) <$> xs) = Ok d1 →
  ∃ d2, run fuel d1 (replicate (length xs) Rollback) = Ok d2 ∧
        parent d2 = parent d ∧ history d2 = history d.
Proof.
  revert d d1. induction xs as [|[x y] xs IH]; intros d d1 Hwf H.
  - injection H as <-. by exists d.
  - simpl in H. apply bind_Ok in H as (d' & Hstep & H).
    apply bind_Ok in Hstep as ([d'' b] & Hu & Hstep). injection Hstep as ->.
    pose proof (wf_union _ _ _ _ _ _ Hwf Hu) as Hwf'.
    destruct (IH d' d1 Hwf' H) as (d2 & Hd2 & Hp2 & Hh2).
    assert (wf d2) as Hwf2.
    { eapply wf_run; [|exact Hd2]. by eapply wf_run. }
    destruct (union_rollback _ _ _ _ _ _ Hwf Hu) as (e' & He' & Hpe & Hhe).
    destruct (rollback_parent_history fuel d2 d' Hwf2 Hwf' Hp2 Hh2)
      as (e1 & e2 & He1 & He2 & Hp & Hh).
    exists e1. split; [|split; congruence].
    change (length ((x, y) :: xs)) with (S (length xs)).
    rewrite replicate_S_end, run_app, Hd2. simpl. by rewrite He1.
Qed.

(** The pattern of [_solve_recursive]: take a checkpoint, call [union] any
    number of times, call [rollback_to] with the checkpoint; the parent
    array and the history are then what they were at the checkpoint. *)
Theorem checkpoint_round_trip fuel0 fuel n cs d (xs : list (nat * nat)) d1 :
  run fuel0 (init n) cs = Ok d →
  run fuel d ((λ xy, Union xy.1 xy.2) <$> xs) = Ok d1 →
  ∃ d2, rollback_to fuel (get_checkpoint d) d1 = Ok d2 ∧
        parent d2 = parent d ∧ history d2 = history d ∧
        get_checkpoint d2 = get_checkpoint d.
Proof.
  intros Hrun H. pose proof (wf_run _ _ _ _ (wf_init n) Hrun) as Hwf.
  destruct (unions_rollbacks_wf fuel d xs d1 Hwf H) as (d2 & Hd2 & Hp & Hh).
  exists d2. unfold rollback_to, get_checkpoint.
  rewrite rollback_to_loop_run by done.
  rewrite (unions_history_length _ _ _ _ H).
  replace (length (history d) + length xs - length (history d)) with (length xs) by lia.
  rewrite Hh. done.
Qed.

Lemma checkpoint_round_trip_witness :
  ∃ d2, rollback_to 4 (get_checkpoint (mk [0; 0; 2; 3] [2; 1; 1; 1]%Z [Some (1, 1, 1%Z)]))
          (mk [0; 0; 0; 0] [4; 1; 1; 1]%Z
              [Some (1, 1, 1%Z); Some (2, 2, 2%Z); None; Some (3, 3, 3%Z)]) = Ok d2 ∧
        parent d2 = parent (mk [0; 0; 2; 3] [2; 1; 1; 1]%Z [Some (1, 1, 1%Z)]) ∧
        history d2 = history (mk [0; 0; 2; 3] [2; 1; 1; 1]%Z [Some (1, 1, 1%Z)]) ∧
        get_checkpoint d2
        = get_checkpoint (mk [0; 0; 2; 3] [2; 1; 1; 1]%Z [Some (1, 1, 1%Z)]).
Proof.
  apply (checkpoint_round_trip 4 4 4 [Union 0 1] _ [(1, 2); (0, 2); (3, 1)]);
    reflexivity.
Defined.

End checkpoints.


(** ** Edge cases of [solve] *)

Section solve_edge_cases.
Import OfflineDynamicConnectivity.
Implicit Types (queries : list (nat * nat * Z * nat)) (ans : list bool).

(** Query ids are ranks: whatever edges are registered in between, the
    [i]-th query registered is stored with id [i]; and when [solve] returns,
    it returns one answer per registered query and stores that list in
    [self.answers], leaving [n] and the operations as they were. *)
Theorem answers_follow_registration n rs depth fuel self' ans :
  solve depth fuel (batch n rs) = Ok (self', ans) →
  queries_of (operations (batch n rs)) = imap with_id (reg_queries rs) ∧
  length ans = length (reg_queries rs) ∧
  answers self' = ans ∧
  operations self' = operations (batch n rs) ∧
  OfflineDynamicConnectivity.n self' = n.
Proof.
  intros H. destruct (batch_spec n rs) as (Hn & _ & Hq & _).
  split; [done|]. unfold solve in H.
  apply bind_Ok in H as ([d ans0] & Hs & H). injection H as <- <-.
  simpl. split; [|done]. unfold solve_state in Hs.
  apply bind_Ok in Hs as (T & _ & Hs).
  destruct (solve_recursive_Ok _ _ _ _ _ _ _ _ _ _ _ (wf_init _) Hs) as (_ & _ & _ & Hlen).
  rewrite Hlen, length_replicate, Hq, length_imap. done.
Qed.

Lemma answers_follow_registration_witness :
  queries_of (operations (batch 2 [AddQuery 0 1 0; AddEdge 0 1 0 2; AddQuery 1 1 1]))
  = imap with_id (reg_queries [AddQuery 0 1 0; AddEdge 0 1 0 2; AddQuery 1 1 1]) ∧
  length [true; true]
  = length (reg_queries [AddQuery 0 1 0; AddEdge 0 1 0 2; AddQuery 1 1 1]) ∧
  answers (mk 2 [Query 0 1 0 0; Edge 0 1 0 2; Query 1 1 1 1] [true; true])
  = [true; true] ∧
  operations (mk 2 [Query 0 1 0 0; Edge 0 1 0 2; Query 1 1 1 1] [true; true])
  = operations (batch 2 [AddQuery 0 1 0; AddEdge 0 1 0 2; AddQuery 1 1 1]) ∧
  OfflineDynamicConnectivity.n
    (mk 2 [Query 0 1 0 0; Edge 0 1 0 2; Query 1 1 1 1] [true; true]) = 2.
Proof.
  apply (answers_follow_registration 2
           [AddQuery 0 1 0; AddEdge 0 1 0 2; AddQuery 1 1 1] 2 2).
  reflexivity.
Defined.

(** Without any operation [solve] raises [ValueError] (the [max] of an
    empty sequence); with edges but no query it returns the empty list for
    every budget, without a single [union]: even an edge between nodes that
    do not exist raises nothing. *)
Theorem solve_without_queries n depth fuel :
  solve depth fuel (init n) = ValueError ∧
  ∀ rs, rs ≠ [] → reg_queries rs = [] →
    solve depth fuel (batch n rs) = Ok (mk n (operations (batch n rs)) [], []).
Proof.
  split; [done|]. intros rs Hne Hq.
  destruct (batch_spec n rs) as (Hn & _ & Hqs & Ht).
  unfold solve, solve_state. rewrite Hqs, Hq, Hn. simpl.
  unfold time_bound. rewrite Ht.
  destruct (py_max_spec (reg_times rs)) as (m & -> & _).
  { destruct rs; [done|discriminate]. }
  simpl. by rewrite solve_recursive_unfold.
Qed.





Lemma mid_inverted (tl tr : Z) :
  (tr ≤ tl)%Z → (tr ≤ (tl + tr) `div` 2 ≤ tl)%Z.
Proof.
  intros H. pose proof (Z.div_mod (tl + tr) 2).
  pose proof (Z.mod_pos_bound (tl + tr) 2). lia.
Qed.

(** On a segment with [time_right <= time_left] a call with queries to
    process never reaches a base case: it does not return, whatever the
    budget. *)
Lemma solve_recursive_inverted depth fuel edges qis queries st tl tr st' :
  (tr ≤ tl)%Z → qis ≠ [] →
  solve_recursive depth fuel edges qis queries st tl tr ≠ Ok st'.
Proof.
  revert edges qis st tl tr st'.
  induction depth as [|depth IH]; intros edges qis [d ans] tl tr st' Htime Hne H;
    rewrite solve_recursive_unfold in H.
  all: destruct qis as [|q qis]; [done|].
  all: destruct (Z.eqb_spec (tr - tl) 1) as [Hbase|Hbase]; [lia|].
  { done. }
  cbv zeta in H.
  pose proof (mid_inverted tl tr Htime) as Hmid.
  set (tm := ((tl + tr) `div` 2)%Z) in *.
  apply bind_Ok in H as (d1 & _ & H).
  apply bind_Ok in H as ([l r] & Hsplit & H).
  apply bind_Ok in H as ([d2 ans2] & Hleft & H).
  apply bind_Ok in H as ([d3 ans3] & Hright & _).
  pose proof (split_queries_Ok _ _ _ _ _ Hsplit) as Hlr.
  assert (q ∈ l ∨ q ∈ r) as [Hq|Hq].
  { simpl in Hsplit. apply bind_Ok in Hsplit as ([[[u v] t] qid] & Hget & _).
    apply getitem_Ok in Hget.
    destruct (Z.lt_ge_cases t tm).
    - left. apply Hlr. split; [by left|eauto 10].
    - right. apply Hlr. split; [by left|eauto 10]. }
  - eapply (IH _ l); [| |exact Hleft]; [lia|].
    intros ->. by apply elem_of_nil in Hq.
  - eapply (IH _ r); [| |exact Hright]; [lia|].
    intros ->. by apply elem_of_nil in Hq.
Qed.

(** When every [time_start] and every query time of the batch is negative
    and there is a query, [solve] never returns: the top-level segment
    [[0, T)] has [T <= 0] and the recursion does not end. *)
Theorem solve_negative_times_never_returns n rs depth fuel r :
  Forall (λ z, (z < 0)%Z) (reg_times rs) →
  reg_queries rs ≠ [] →
  solve depth fuel (batch n rs) ≠ Ok r.
Proof.
  intros Hneg Hq H. unfold solve in H.
  apply bind_Ok in H as ([d ans] & Hs & _). unfold solve_state in Hs.
  apply bind_Ok in Hs as (T & HT & Hs).
  destruct (batch_spec n rs) as (_ & _ & Hqs & Ht).
  unfold time_bound in HT. rewrite Ht in HT.
  apply bind_Ok in HT as (m & Hm & HT). injection HT as <-.
  destruct (py_max_spec (reg_times rs)) as (m' & Hm' & Hin & _).
  { intros Hnil. rewrite Hnil in Hm. discriminate. }
  rewrite Hm in Hm'. injection Hm' as <-.
  rewrite Forall_forall in Hneg. specialize (Hneg m Hin).
  eapply solve_recursive_inverted; [| |exact Hs]; [lia|].
  rewrite Hqs, length_imap. destruct (reg_queries rs); [done|discriminate].
Qed.

Lemma solve_negative_times_never_returns_witness :
  solve 5 5 (batch 2 [AddEdge 0 1 (-3) 4; AddQuery 0 1 (-1)])
  ≠ Ok (mk 2 [Edge 0 1 (-3) 4; Query 0 1 (-1) 0] [false], [false]).
Proof.
  apply (solve_negative_times_never_returns 2 [AddEdge 0 1 (-3) 4; AddQuery 0 1 (-1)]).
  - repeat constructor.
  - discriminate.
Defined.

End solve_edge_cases.


(** ** What a [True] answer of [solve] rests on *)

Section soundness.
Import OfflineDynamicConnectivity.
Implicit Types (d : RollbackDSU.t) (edges all : list (nat * nat * Z * Z)).


















End soundness.


(** ** Union by size *)

Section union_by_size.
Import RollbackDSU.
Implicit Types (d : t) (x y z r : nat).

(** A merging [union] hangs the root with the smaller recorded size under
    the other one (the root of [y] under the root of [x] on a tie). *)
Lemma union_absorbs_smaller fuel d x y d' :
  union fuel d x y = Ok (d', true) →
  ∃ a c sa sc,
    parent d !! a = Some a ∧ parent d !! c = Some c ∧ a ≠ c ∧
    size d !! a = Some sa ∧ size d !! c = Some sc ∧ (sc ≤ sa)%Z ∧
    parent d' = <[c:=a]> (parent d) ∧ size d' = <[a:=(sa + sc)%Z]> (size d).
Proof.
  unfold union. intros H.
  apply bind_Ok in H as (rx & Hrx & H). apply bind_Ok in H as (ry & Hry & H).
  destruct (rx =? ry) eqn:Eq; [by injection H|]. apply Nat.eqb_neq in Eq.
  apply bind_Ok in H as (sx & Hsx & H). apply bind_Ok in H as (sy & Hsy & H).
  apply getitem_Ok in Hsx, Hsy.
  apply find_loop_path in Hrx as (lx & Hpx & _).
  apply find_loop_path in Hry as (ly & Hpy & _).
  apply path_end_root in Hpx, Hpy.
  destruct (Z.ltb_spec sx sy) as [Hlt|Hge].
  - apply bind_Ok in H as (op & Hop & H). apply bind_Ok in H as (os & Hos & H).
    apply bind_Ok in H as (p' & Hp' & H). apply bind_Ok in H as (s1 & Hs1 & H).
    apply bind_Ok in H as (s2 & Hs2 & H). apply bind_Ok in H as (s' & Hs' & H).
    simpl in *. apply getitem_Ok in Hop, Hos, Hs1, Hs2.
    apply setitem_Ok in Hp' as [_ ->]. apply setitem_Ok in Hs' as [_ ->].
    injection H as <-. simpl.
    assert (s1 = sy) as -> by congruence. assert (s2 = sx) as -> by congruence.
    exists ry, rx, sy, sx. repeat split; (done || lia || congruence).
  - apply bind_Ok in H as (op & Hop & H). apply bind_Ok in H as (os & Hos & H).
    apply bind_Ok in H as (p' & Hp' & H). apply bind_Ok in H as (s1 & Hs1 & H).
    apply bind_Ok in H as (s2 & Hs2 & H). apply bind_Ok in H as (s' & Hs' & H).
    simpl in *. apply getitem_Ok in Hop, Hos, Hs1, Hs2.
    apply setitem_Ok in Hp' as [_ ->]. apply setitem_Ok in Hs' as [_ ->].
    injection H as <-. simpl.
    assert (s1 = sx) as -> by congruence. assert (s2 = sy) as -> by congruence.
    exists rx, ry, sx, sy. repeat split; (done || lia || congruence).
Qed.

Lemma shallow_init n : shallow (init n).
Proof.
  intros x l r Hp. simpl in *.
  inversion Hp as [r0 Hr0|x0 y0 l0 r0 Hx0 Hne0 Hp0]; subst.
  - apply lookup_seq in Hr0 as [_ Hr]. exists 1%Z.
    rewrite lookup_replicate_2 by done. done.
  - apply lookup_seq in Hx0 as [-> _]. done.
Qed.

Lemma shallow_union fuel d x y d' b :
  wf d → shallow d → union fuel d x y = Ok (d', b) → shallow d'.
Proof.
  intros Hwf Hsh Hu. destruct b.
  2:{ apply union_Ok in Hu as (rx & ry & _ & _ & Hu).
      destruct Hu as [(_ & _ & ->)|(_ & ? & _)]; [|done].
      intros z l r Hz. exact (Hsh z l r Hz). }
  destruct (union_absorbs_smaller _ _ _ _ _ Hu)
    as (a & c & sa & sc & Ha & Hc & Hac & Hsa & Hsc & Hle & Hp' & Hs').
  intros z l' r' Hz. rewrite Hp' in Hz. rewrite Hs'.
  pose proof (path_start_lt _ _ _ _ Hz) as Hzlt. rewrite length_insert in Hzlt.
  destruct (wf_forest d Hwf z Hzlt) as (l & r & Hpz).
  pose proof (path_link _ _ _ _ a c Hpz Ha Hc Hac) as Hlink.
  destruct (path_det _ _ _ _ _ _ Hz Hlink) as [-> ->].
  destruct (Hsh z l r Hpz) as (s & Hs & Hpow).
  destruct (Hsh c [] c (path_root _ _ Hc)) as (sc' & Hsc' & Hone).
  rewrite Hsc in Hsc'. injection Hsc' as <-. simpl in Hone.
  assert (a < length (size d)) as Halt by (by eapply lookup_lt_Some).
  case_decide as Hrc.
  - subst r. rewrite Hsc in Hs. injection Hs as <-.
    exists (sa + sc)%Z. rewrite list_lookup_insert_eq by done. split; [done|].
    rewrite length_app. simpl. rewrite Nat2Z.inj_add. simpl.
    rewrite Z.pow_add_r by lia. change (2 ^ 1)%Z with 2%Z. lia.
  - destruct (decide (r = a)) as [->|Hra].
    + rewrite Hsa in Hs. injection Hs as <-.
      exists (sa + sc)%Z. rewrite list_lookup_insert_eq by done. split; [done|lia].
    + exists s. by rewrite list_lookup_insert_ne.
Qed.

Lemma shallow_run fuel cs d d' :
  wf d → shallow d → Forall (λ c, is_rollback c = false) cs →
  run fuel d cs = Ok d' → shallow d'.
Proof.
  revert d. induction cs as [|c cs IH]; intros d Hwf Hsh Hcs H; simpl in H.
  - by injection H as <-.
  - apply bind_Ok in H as (d1 & Hd1 & H).
    apply Forall_cons in Hcs as [Hc Hcs].
    eapply (IH d1); [by eapply wf_step| |done|done].
    destruct c as [x y| |k|x|x y]; simpl in *; try done.
    + apply bind_Ok in Hd1 as ([d2 b] & Hu & Hd1). injection Hd1 as <-.
      by eapply shallow_union.
    + apply bind_Ok in Hd1 as (? & _ & Hd1). by injection Hd1 as <-.
    + apply bind_Ok in Hd1 as (? & _ & Hd1). by injection Hd1 as <-.
Qed.

Lemma component_count_le fuel d r : component_count fuel d r ≤ length (parent d).
Proof.
  unfold component_count.
  etrans; [apply length_filter|]. by rewrite length_seq.
Qed.

(** Union by size keeps the trees shallow as long as nothing is rolled
    back: an element is at most [log2 n] parent pointers away from its
    root, so [find] returns within [log2 n + 1] tests of its loop. *)
Theorem find_is_logarithmic fuel0 n cs d x :
  run fuel0 (init n) cs = Ok d →
  Forall (λ c, is_rollback c = false) cs →
  x < n →
  ∃ l r, path (parent d) x l r ∧ 2 ^ length l ≤ n ∧
         ∀ fuel, length l < fuel → find fuel d x = Ok r.
Proof.
  intros Hrun Hcs Hx.
  pose proof (wf_run _ _ _ _ (wf_init n) Hrun) as Hwf.
  pose proof (run_length _ _ _ _ (wf_init n) Hrun) as Hlen.
  simpl in Hlen. rewrite length_seq in Hlen.
  pose proof (shallow_run _ _ _ _ (wf_init n) (shallow_init n) Hcs Hrun) as Hsh.
  pose proof (sized_run _ _ _ _ (wf_init n) (sized_init n) Hcs Hrun) as Hsz.
  destruct (wf_forest d Hwf x) as (l & r & Hp); [lia|].
  exists l, r. split; [done|]. split.
  - destruct (Hsh x l r Hp) as (s & Hs & Hpow).
    rewrite (Hsz n r) in Hs by (lia || by eapply path_end_root).
    injection Hs as <-.
    pose proof (component_count_le n d r) as Hle.
    apply Nat2Z.inj_le. rewrite Nat2Z.inj_pow. simpl. lia.
  - intros fuel Hfuel. by eapply path_find_loop.
Qed.

Lemma find_is_logarithmic_witness :
  ∃ l r, path (parent (mk [0; 0; 0; 2] [4; 1; 2; 1]%Z
                          [Some (1, 1, 1%Z); Some (3, 3, 1%Z); Some (2, 2, 2%Z)])) 3 l r ∧
         2 ^ length l ≤ 4 ∧
         ∀ fuel, length l < fuel →
           find fuel (mk [0; 0; 0; 2] [4; 1; 2; 1]%Z
                         [Some (1, 1, 1%Z); Some (3, 3, 1%Z); Some (2, 2, 2%Z)]) 3 = Ok r.
Proof.
  apply (find_is_logarithmic 4 4 [Union 0 1; Union 2 3; Union 1 2]);
    [reflexivity|repeat constructor|lia].
Defined.

End union_by_size.


(** ** The recursion gives back the structure it was given *)

Section frame.
Import OfflineDynamicConnectivity.
Implicit Types (d : RollbackDSU.t) (edges : list (nat * nat * Z * Z)).

(** The merging loop is a sequence of [union] calls, one per spanning edge. *)
Lemma add_spanning_run fuel edges tl tm d :
  add_spanning fuel edges tl tm d
  = RollbackDSU.run fuel d
      ((λ xy : nat * nat, RollbackDSU.Union xy.1 xy.2) <$>
       ((λ e : nat * nat * Z * Z, let '(u, v, _, _) := e in (u, v)) <$>
        filter (λ e, spans tl tm e = true) edges)).
Proof.
  revert d. induction edges as [|[[[u v] ts] te] edges IH]; intros d; [done|].
  rewrite filter_cons. simpl.
  destruct (spans tl tm (u, v, ts, te)) eqn:Hsp.
  - rewrite decide_True by done. simpl.
    destruct (RollbackDSU.union fuel d u v) as [[d1 b]| | |]; simpl; [apply IH|done..].
  - rewrite decide_False by done. apply IH.
Qed.

Lemma rollbacks_parent_history fuel k d1 d2 e1 :
  wf d1 → wf d2 →
  RollbackDSU.parent d1 = RollbackDSU.parent d2 →
  RollbackDSU.history d1 = RollbackDSU.history d2 →
  RollbackDSU.run fuel d1 (replicate k RollbackDSU.Rollback) = Ok e1 →
  ∃ e2, RollbackDSU.run fuel d2 (replicate k RollbackDSU.Rollback) = Ok e2 ∧
        RollbackDSU.parent e1 = RollbackDSU.parent e2 ∧
        RollbackDSU.history e1 = RollbackDSU.history e2.
Proof.
  revert d1 d2. induction k as [|k IH]; intros d1 d2 Hwf1 Hwf2 Hp Hh H; simpl in *.
  - injection H as <-. by exists d2.
  - apply bind_Ok in H as (f1 & Hf1 & H).
    destruct (rollback_parent_history fuel d1 d2 Hwf1 Hwf2 Hp Hh)
      as (g1 & g2 & Hg1 & Hg2 & Hpg & Hhg).
    rewrite Hg1 in Hf1. injection Hf1 as <-. rewrite Hg2. simpl.
    eapply (IH g1 g2); eauto using wf_rollback.
Qed.

Lemma solve_recursive_frame depth fuel edges qis queries d ans tl tr d' ans' :
  wf d →
  solve_recursive depth fuel edges qis queries (d, ans) tl tr = Ok (d', ans') →
  RollbackDSU.parent d' = RollbackDSU.parent d ∧
  RollbackDSU.history d' = RollbackDSU.history d.
Proof.
  revert edges qis d ans tl tr d' ans'.
  induction depth as [|depth IH]; intros edges qis d ans tl tr d' ans' Hwf H;
    rewrite solve_recursive_unfold in H.
  all: destruct qis as [|q qis]; [by injection H as <- <-|].
  all: destruct (tr - tl =? 1)%Z.
  all: try (apply bind_Ok in H as (ans1 & _ & H); by injection H as <- <-).
  { done. }
  cbv zeta in H.
  apply bind_Ok in H as (d1 & Hd1 & H).
  apply bind_Ok in H as ([l r] & Hsplit & H).
  apply bind_Ok in H as ([d2 ans2] & Hleft & H).
  apply bind_Ok in H as ([d3 ans3] & Hright & H).
  apply bind_Ok in H as (d4 & Hback & H). injection H as <- <-.
  destruct (add_spanning_Ok _ _ _ _ _ _ Hwf Hd1) as (Hwf1 & _).
  destruct (solve_recursive_Ok _ _ _ _ _ _ _ _ _ _ _ Hwf1 Hleft) as (Hwf2 & _).
  destruct (solve_recursive_Ok _ _ _ _ _ _ _ _ _ _ _ Hwf2 Hright) as (Hwf3 & _).
  destruct (IH _ _ _ _ _ _ _ _ Hwf1 Hleft) as (Hp2 & Hh2).
  destruct (IH _ _ _ _ _ _ _ _ Hwf2 Hright) as (Hp3 & Hh3).
  rewrite add_spanning_run in Hd1.
  set (xs := (λ e : nat * nat * Z * Z, let '(u, v, _, _) := e in (u, v)) <$>
             filter (λ e, spans tl ((tl + tr) `div` 2) e = true) edges) in *.
  destruct (unions_rollbacks_wf fuel d xs d1 Hwf Hd1) as (e1 & He1 & Hpe & Hhe).
  destruct (rollbacks_parent_history fuel (length xs) d1 d3 e1)
    as (e3 & He3 & Hp & Hh); [done|done|congruence|congruence|done|].
  unfold RollbackDSU.rollback_to, RollbackDSU.get_checkpoint in Hback.
  rewrite rollback_to_loop_run in Hback by done.
  rewrite Hh3, Hh2, (unions_history_length _ _ _ _ Hd1) in Hback.
  replace (length (RollbackDSU.history d) + length xs - length (RollbackDSU.history d))
    with (length xs) in Hback by lia.
  rewrite He3 in Hback. injection Hback as <-. split; congruence.
Qed.

(** Every call of [_solve_recursive] that returns leaves [parent] and
    [history] exactly as it received them, whatever it merged and undid in
    between; [size] is the one thing it may leave changed. *)
Theorem solve_recursive_restores fuel0 n cs depth fuel edges qis queries
    d ans tl tr d' ans' :
  RollbackDSU.run fuel0 (RollbackDSU.init n) cs = Ok d →
  solve_recursive depth fuel edges qis queries (d, ans) tl tr = Ok (d', ans') →
  RollbackDSU.parent d' = RollbackDSU.parent d ∧
  RollbackDSU.history d' = RollbackDSU.history d.
Proof.
  intros Hrun. apply solve_recursive_frame. by eapply wf_run, Hrun; apply wf_init.
Qed.

Lemma solve_recursive_restores_witness :
  RollbackDSU.parent (RollbackDSU.mk [0; 0; 2] [3; 1; 1]%Z [Some (1, 1, 1%Z)])
  = RollbackDSU.parent (RollbackDSU.mk [0; 0; 2] [2; 1; 1]%Z [Some (1, 1, 1%Z)]) ∧
  RollbackDSU.history (RollbackDSU.mk [0; 0; 2] [3; 1; 1]%Z [Some (1, 1, 1%Z)])
  = RollbackDSU.history (RollbackDSU.mk [0; 0; 2] [2; 1; 1]%Z [Some (1, 1, 1%Z)]).
Proof.
  apply (solve_recursive_restores 3 3 [RollbackDSU.Union 0 1] 2 3
           [(1, 2, 0%Z, 2%Z)] [0] [(0, 2, 1%Z, 0)] _ [false] 0 2 _ [true]).
  - reflexivity.
  - reflexivity.
Defined.

End frame.


(** ** Batches whose edges last for the whole timeline *)

Section permanent_edges.
Import OfflineDynamicConnectivity.
Implicit Types (d : RollbackDSU.t) (queries : list (nat * nat * Z * nat))
  (ans : list bool).

Lemma rollback_to_checkpoint fuel d :
  RollbackDSU.rollback_to fuel (RollbackDSU.get_checkpoint d) d = Ok d.
Proof.
  unfold RollbackDSU.rollback_to, RollbackDSU.get_checkpoint.
  destruct (length (RollbackDSU.history d)) eqn:Hlen; simpl; rewrite Hlen;
    case_decide; done || lia.
Qed.

Lemma answer_leaf_state fuel queries d tl qis ans :
  wf d → length (RollbackDSU.parent d) ≤ fuel →
  ready (length (RollbackDSU.parent d)) queries tl (tl + 1) (length ans) qis →
  ∃ ans', answer_leaf fuel qis queries d tl ans = Ok ans' ∧
          length ans' = length ans ∧
          ∀ i, ans' !! i = if decide (i ∈ qis) then answer_in fuel d queries i
                           else ans !! i.
Proof.
  intros Hwf Hfuel. revert ans. induction qis as [|q qis IH]; intros ans Hr.
  - exists ans. split; [done|]. split; [done|]. intros i.
    case_decide as Hi; [by apply elem_of_nil in Hi|done].
  - destruct (Hr q) as (u & v & t & Hq & Hu & Hv & Ht & Hlen); [by left|].
    destruct (connected_total fuel d u v Hwf Hfuel Hu Hv) as [b Hb].
    destruct (IH (<[q:=b]> ans)) as (ans' & Hans' & Hlen' & Hspec).
    { intros qi Hqi. rewrite length_insert. apply Hr. by right. }
    exists ans'. split; [|split].
    + simpl. apply getitem_Ok in Hq. rewrite Hq. simpl.
      replace (t =? tl)%Z with true by (symmetry; apply Z.eqb_eq; lia).
      rewrite Hb. simpl. rewrite setitem_lt by done. exact Hans'.
    + by rewrite Hlen', length_insert.
    + intros i. rewrite Hspec.
      destruct (decide (i ∈ qis)) as [Hi|Hi].
      * rewrite decide_True; [done|by right].
      * destruct (decide (i = q)) as [->|Hne].
        -- rewrite decide_True by (by left).
           rewrite list_lookup_insert_eq by done.
           unfold answer_in. by rewrite Hq, Hb.
        -- rewrite decide_False.
           ++ by rewrite list_lookup_insert_ne.
           ++ intros [?|?]%elem_of_cons; done.
Qed.

(** With no edge left to merge, a call leaves the structure alone and gives
    every query of its segment the answer of [connected] in that state. *)
Lemma solve_recursive_no_new_edges depth fuel queries d qis ans tl tr :
  wf d → length (RollbackDSU.parent d) ≤ fuel →
  (tl < tr)%Z → Z.to_nat (tr - tl) ≤ depth →
  ready (length (RollbackDSU.parent d)) queries tl tr (length ans) qis →
  ∃ ans', solve_recursive depth fuel [] qis queries (d, ans) tl tr = Ok (d, ans') ∧
          length ans' = length ans ∧
          ∀ i, ans' !! i = if decide (i ∈ qis) then answer_in fuel d queries i
                           else ans !! i.
Proof.
  intros Hwf Hfuel. revert qis ans tl tr.
  induction depth as [|depth IH]; intros qis ans tl tr Htime Hdepth Hr;
    rewrite solve_recursive_unfold.
  all: destruct qis as [|q qis];
    [exists ans; split; [done|]; split; [done|]; intros i;
     case_decide as Hi; [by apply elem_of_nil in Hi|done] |].
  all: destruct (Z.eqb_spec (tr - tl) 1) as [Hbase|Hbase].
  all: try (replace tr with (tl + 1)%Z in Hr by lia;
            destruct (answer_leaf_state fuel queries d tl (q :: qis) ans Hwf Hfuel Hr)
              as (ans' & Hans' & Hlen' & Hspec);
            exists ans'; rewrite (bind_eq _ _ _ Hans'); done).
  { lia. }
  cbv zeta.
  pose proof (mid_bounds tl tr ltac:(lia)) as Hmid.
  set (tm := ((tl + tr) `div` 2)%Z) in *.
  change (add_spanning fuel [] tl tm d) with (Ok (A:=RollbackDSU.t) d).
  rewrite (bind_eq _ _ d eq_refl).
  destruct (split_queries_total (q :: qis) queries tm) as (l & r & Hsplit).
  { intros qi Hqi. destruct (Hr qi Hqi) as (u & v & t & Hq & _). eauto. }
  rewrite (bind_eq _ _ _ Hsplit). cbv beta iota.
  pose proof (split_queries_Ok _ _ _ _ _ Hsplit) as Hlr.
  change (filter (λ e, spans tl tm e = false) []) with (@nil (nat * nat * Z * Z)).
  destruct (IH l ans tl tm) as (ans1 & Hleft & Hlen1 & Hspec1); [lia|lia| |].
  { intros qi Hqi. apply Hlr in Hqi as [Hqi (u' & v' & t' & qid' & Hq' & Ht')].
    destruct (Hr qi Hqi) as (u & v & t & Hq & Hu & Hv & Ht & Hlen).
    exists u, v, t. rewrite Hq in Hq'. simplify_eq. repeat split; try done; lia. }
  rewrite (bind_eq _ _ _ Hleft).
  destruct (IH r ans1 tm tr) as (ans2 & Hright & Hlen2 & Hspec2); [lia|lia| |].
  { intros qi Hqi. apply Hlr in Hqi as [Hqi (u' & v' & t' & qid' & Hq' & Ht')].
    destruct (Hr qi Hqi) as (u & v & t & Hq & Hu & Hv & Ht & Hlen).
    exists u, v, t. rewrite Hq in Hq'. simplify_eq. rewrite Hlen1.
    repeat split; try done; lia. }
  rewrite (bind_eq _ _ _ Hright). cbv beta iota.
  rewrite rollback_to_checkpoint. simpl.
  exists ans2. split; [done|]. split; [congruence|].
  intros i. rewrite Hspec2, Hspec1.
  destruct (decide (i ∈ r)) as [Hir|Hir].
  { apply Hlr in Hir as [Hi _]. by rewrite decide_True. }
  destruct (decide (i ∈ l)) as [Hil|Hil].
  { apply Hlr in Hil as [Hi _]. by rewrite decide_True. }
  rewrite decide_False; [done|]. intros Hi.
  destruct (Hr i Hi) as (u & v & t & Hq & _).
  destruct (Z.lt_ge_cases t tm).
  - apply Hil, Hlr. eauto 10.
  - apply Hir, Hlr. eauto 10.
Qed.

(** When every edge spans the left half, the merging loop merges them all,
    in order, and leaves no edge for the two halves. *)
Lemma add_spanning_all fuel edges tl tm d :
  (∀ e, e ∈ edges → spans tl tm e = true) →
  add_spanning fuel edges tl tm d = union_all fuel edges d ∧
  filter (λ e, spans tl tm e = false) edges = [].
Proof.
  revert d. induction edges as [|[[[u v] ts] te] edges IH]; intros d Hall; [done|].
  assert (spans tl tm (u, v, ts, te) = true) as Hsp by (apply Hall; by left).
  assert (∀ e, e ∈ edges → spans tl tm e = true) as Hall'
    by (intros e He; apply Hall; by right).
  split.
  - simpl. rewrite Hsp.
    destruct (RollbackDSU.union fuel d u v) as [[d1 b]| | |]; simpl; try done.
    by apply IH.
  - rewrite filter_cons, decide_False by (rewrite Hsp; done). by apply (IH d).
Qed.

Lemma filter_all {A} (P : A → Prop) `{!∀ a, Decision (P a)} (l : list A) :
  (∀ a, a ∈ l → P a) → filter P l = l.
Proof.
  induction l as [|a l IH]; intros Hall; [done|].
  rewrite filter_cons, decide_True by (apply Hall; by left).
  f_equal. apply IH. intros b Hb. apply Hall. by right.
Qed.

Lemma solve_recursive_unfold_queries depth fuel edges qis queries d ans tl tr :
  qis ≠ [] → (tr - tl ≠ 1)%Z →
  solve_recursive (S depth) fuel edges qis queries (d, ans) tl tr =
  (let tm := ((tl + tr) `div` 2)%Z in
   d1 ← add_spanning fuel edges tl tm d;
   '(l, r) ← split_queries qis queries tm;
   st ← solve_recursive depth fuel
          (filter (λ e, spans tl tm e = false) edges) l queries (d1, ans) tl tm;
   '(d2, answers') ← solve_recursive depth fuel
          (filter (λ e, spans tl tm e = false) edges) r queries st tm tr;
   d3 ← RollbackDSU.rollback_to fuel (RollbackDSU.get_checkpoint d) d2;
   Ok (d3, answers')).
Proof.
  intros Hne Hbase. rewrite solve_recursive_unfold.
  destruct qis as [|q qis]; [done|].
  by replace (tr - tl =? 1)%Z with false by (symmetry; by apply Z.eqb_neq).
Qed.

(** On a batch that meets the input contract, with [T >= 2] and every edge
    valid from time 0 to at least [T], [solve] returns, and each answer is
    the reference answer: what [connected] says once the edges active at
    the query's time, here all of them, are merged on a fresh structure. *)
Theorem solve_permanent_edges n rs T depth fuel :
  Forall (valid_registration n) rs →
  time_bound (operations (batch n rs)) = Ok T →
  (2 ≤ T)%Z →
  Forall (λ e : nat * nat * Z * Z,
            let '(_, _, time_start, time_end) := e in
            (time_start ≤ 0)%Z ∧ (T ≤ time_end)%Z) (reg_edges rs) →
  n ≤ fuel → Z.to_nat T ≤ depth →
  ∃ self' ans,
    solve depth fuel (batch n rs) = Ok (self', ans) ∧
    length ans = length (reg_queries rs) ∧
    ∀ i q, reg_queries rs !! i = Some q →
      ∃ b, reference_answer fuel n (reg_edges rs) (with_id i q) = Ok b ∧
           ans !! i = Some b.
Proof.
  intros Hv HT HT2 Hperm Hfuel Hdepth.
  destruct (batch_spec n rs) as (Hn & He & Hq & Ht).
  assert (∀ z, z ∈ reg_times rs → (z < T)%Z) as Hlt.
  { unfold time_bound in HT. rewrite Ht in HT.
    apply bind_Ok in HT as (m & Hm & HT). injection HT as <-.
    destruct (py_max_spec (reg_times rs)) as (m' & Hm' & _ & Hle).
    { intros Hnil. rewrite Hnil in Hm. discriminate. }
    rewrite Hm in Hm'. injection Hm' as <-.
    intros z Hz. specialize (Hle z Hz). lia. }
  unfold solve, solve_state. rewrite HT, Hn, He, Hq. simpl.
  set (edges := reg_edges rs) in *.
  set (queries := imap with_id (reg_queries rs)) in *.
  assert (length queries = length (reg_queries rs)) as Hlenq by apply length_imap.
  pose proof (mid_bounds 0 T ltac:(lia)) as Hmid.
  rewrite Forall_forall in Hperm.
  assert (∀ e, e ∈ edges → spans 0 ((0 + T) `div` 2) e = true) as Hall.
  { intros [[[u v] ts] te] Hin. destruct (Hperm _ Hin) as [Hs Hend].
    unfold spans. apply andb_true_iff. split; [by apply Z.leb_le|].
    apply Z.geb_le. lia. }
  set (d0 := RollbackDSU.init n).
  assert (length (RollbackDSU.parent d0) = n) as Hlen0 by (simpl; by rewrite length_seq).
  destruct (add_spanning_total fuel edges 0 ((0 + T) `div` 2) d0) as [d1 Hd1];
    [apply wf_init|lia| |].
  { unfold d0. simpl. rewrite length_seq. by apply valid_reg_edges. }
  destruct (add_spanning_Ok _ _ _ _ _ _ (wf_init n) Hd1) as (Hwf1 & Hlen1 & _).
  assert (length (RollbackDSU.parent d1) = n) as Hlen1n
    by (rewrite Hlen1; simpl; by rewrite length_seq).
  clear Hlen1.
  destruct (add_spanning_all fuel edges 0 ((0 + T) `div` 2) d0 Hall) as [Hua Hnone].
  rewrite Hua in Hd1.
  assert (ready (length (RollbackDSU.parent d1)) queries 0 T
                (length (replicate (length queries) false)) (seq 0 (length queries)))
    as Hready.
  { intros qi Hqi. apply elem_of_seq in Hqi as [_ Hqi]. simpl in Hqi.
    rewrite Hlenq in Hqi.
    destruct (lookup_lt_is_Some_2 _ _ Hqi) as [[[u v] t] Hlook].
    exists u, v, t. unfold queries. rewrite list_lookup_imap, Hlook. split; [done|].
    assert ((u, v, t) ∈ reg_queries rs) as Hin by (apply list_elem_of_lookup; eauto).
    destruct (valid_reg_queries n rs u v t Hv Hin) as (? & ? & ?).
    fold queries. rewrite length_replicate, Hlenq, Hlen1n.
    repeat split; try done.
    apply Hlt. apply list_elem_of_omap in Hin as (reg & Hreg & Heq).
    apply list_elem_of_fmap. exists reg. split; [|done].
    destruct reg; simplify_eq. done. }
  destruct (decide (length queries = 0)) as [Hzero|Hnz].
  { rewrite Hzero. simpl. rewrite solve_recursive_unfold.
    eexists _, _. split; [done|]. split; [simpl; lia|]. intros i q Hi.
    apply lookup_lt_Some in Hi. lia. }
  destruct depth as [|depth]; [lia|].
  rewrite solve_recursive_unfold_queries; [|
    intros Hnil; apply (f_equal length) in Hnil; rewrite length_seq in Hnil;
    simpl in Hnil; lia | lia].
  cbv zeta.
  set (tm := ((0 + T) `div` 2)%Z) in *.
  assert (add_spanning fuel edges 0 tm d0 = Ok d1) as Hadd by (by rewrite Hua).
  rewrite (bind_eq _ _ _ Hadd).
  destruct (split_queries_total (seq 0 (length queries)) queries tm) as (l & r & Hsplit).
  { intros qi Hqi. destruct (Hready qi Hqi) as (u & v & t & Hlook & _). eauto. }
  rewrite (bind_eq _ _ _ Hsplit). cbv beta iota. rewrite Hnone.
  pose proof (split_queries_Ok _ _ _ _ _ Hsplit) as Hlr.
  destruct (solve_recursive_no_new_edges depth fuel queries d1 l
              (replicate (length queries) false) 0 tm)
    as (ans1 & Hleft & Hlen1' & Hspec1); [done|lia|lia|lia| |].
  { intros qi Hqi. apply Hlr in Hqi as [Hqi (u' & v' & t' & qid' & Hq' & Ht')].
    destruct (Hready qi Hqi) as (u & v & t & Hlook & Hu & Hv' & Htt & Hl).
    exists u, v, t. rewrite Hlook in Hq'. simplify_eq. repeat split; try done; lia. }
  rewrite (bind_eq _ _ _ Hleft).
  destruct (solve_recursive_no_new_edges depth fuel queries d1 r ans1 tm T)
    as (ans2 & Hright & Hlen2 & Hspec2); [done|lia|lia|lia| |].
  { intros qi Hqi. apply Hlr in Hqi as [Hqi (u' & v' & t' & qid' & Hq' & Ht')].
    destruct (Hready qi Hqi) as (u & v & t & Hlook & Hu & Hv' & Htt & Hl).
    exists u, v, t. rewrite Hlook in Hq'. simplify_eq. rewrite Hlen1'.
    repeat split; try done; lia. }
  rewrite (bind_eq _ _ _ Hright). cbv beta iota.
  destruct (rollback_to_wf fuel (RollbackDSU.get_checkpoint d0) d1 Hwf1) as (d4 & Hd4 & _).
  rewrite (bind_eq _ _ _ Hd4). simpl. eexists _, ans2. split; [done|].
  split; [rewrite Hlen2, Hlen1', length_replicate; done|].
  intros i [[u v] t] Hi. pose proof (lookup_lt_Some _ _ _ Hi) as Hilt.
  assert (i ∈ seq 0 (length queries)) as Hiq by (apply elem_of_seq; lia).
  destruct (Hready i Hiq) as (u' & v' & t' & Hlook & Hu & Hv' & Htt & _).
  unfold queries in Hlook. rewrite list_lookup_imap, Hi in Hlook.
  simpl in Hlook. injection Hlook as <- <- <-.
  rewrite Hlen1n in Hu, Hv'.
  destruct (connected_total fuel d1 u v Hwf1) as [b Hb]; [lia|lia|lia|].
  exists b. split.
  - unfold reference_answer. simpl.
    rewrite filter_all.
    + fold d0. rewrite Hd1. simpl. exact Hb.
    + intros [[[a c] ts] te] Hin. destruct (Hperm _ Hin) as [Hs Hend].
      unfold active_at. apply andb_true_iff. split; [apply Z.leb_le|apply Z.ltb_lt]; lia.
  - assert (answer_in fuel d1 queries i = Some b) as Hans.
    { unfold answer_in, queries. rewrite list_lookup_imap, Hi. simpl. by rewrite Hb. }
    rewrite Hspec2, Hspec1.
    destruct (decide (i ∈ r)) as [Hir|Hir]; [done|].
    destruct (decide (i ∈ l)) as [Hil|Hil]; [done|].
    exfalso. destruct (Z.lt_ge_cases t tm).
    + apply Hil, Hlr. split; [done|]. exists u, v, t, i.
      unfold queries. rewrite list_lookup_imap, Hi. done.
    + apply Hir, Hlr. split; [done|]. exists u, v, t, i.
      unfold queries. rewrite list_lookup_imap, Hi. done.
Qed.

Lemma solve_permanent_edges_witness :
  ∃ self' ans,
    solve 3 3 (batch 3 [AddEdge 0 1 0 2; AddQuery 0 1 1; AddQuery 1 2 0])
    = Ok (self', ans) ∧
    length ans = length (reg_queries [AddEdge 0 1 0 2; AddQuery 0 1 1; AddQuery 1 2 0]) ∧
    ∀ i q, reg_queries [AddEdge 0 1 0 2; AddQuery 0 1 1; AddQuery 1 2 0] !! i = Some q →
      ∃ b, reference_answer 3 3
             (reg_edges [AddEdge 0 1 0 2; AddQuery 0 1 1; AddQuery 1 2 0]) (with_id i q)
           = Ok b ∧
           ans !! i = Some b.
Proof.
  apply (solve_permanent_edges 3 [AddEdge 0 1 0 2; AddQuery 0 1 1; AddQuery 1 2 0] 2 3 3).
  - repeat constructor; lia.
  - reflexivity.
  - lia.
  - repeat constructor; lia.
  - lia.
  - simpl. lia.
Defined.

End permanent_edges.
